(** * ctrader-relay: the sync bridge, embedded and verified

    The repository holds three versions of one program:
    - [src/index.js]: WebSocket transport, symbol list, deal pagination and
      symbol details (module [Relay]);
    - [src/unnamed/part_000]: TLS socket with a length-prefixed frame reader,
      symbol list and deal pagination (module [Tcp]);
    - [src/unnamed/part_001]: WebSocket transport, deal pagination only
      (module [Plain]).

    JavaScript values are embedded as a small inductive type, the
    asynchronous exchange as a state-and-exception monad over the stream of
    events still to arrive and the trace of what the program did. *)

From Stdlib Require Import Ascii Strings.Byte.
From stdpp Require Import gmap strings list.

#[local] Set Warnings "-register-all".

Local Open Scope string_scope.
Local Open Scope list_scope.
Local Open Scope Z_scope.

(** ** JavaScript values

    Numbers are the doubles: [NaN], the two infinities and the finite ones,
    each either an integer ([Fin z]) or an odd multiple of a negative power of
    two ([Frac m e], the number [m / 2^e]).  The two zeros are one: the
    program never divides and prints both as [0].  A [Fin z] or [Frac m e]
    that no double equals ([z] too long for 53 bits, [m] even) stands for no
    JavaScript value; no operation below returns one on arguments that are
    doubles.  Strings are sequences of code units below 256.  [undefined] is
    [None] in [option value]. *)

Inductive num : Type :=
| NaN
| Fin (z : Z)
| Frac (m : Z) (e : positive)
| Infinity (negative : bool).

#[global] Instance num_eq_dec : EqDecision num.
Proof. solve_decision. Defined.

#[global] Instance num_countable : Countable num :=
  inj_countable'
    (fun n => match n with
              | NaN => inl (inl (inl tt))
              | Fin z => inl (inl (inr z))
              | Frac m e => inl (inr (m, e))
              | Infinity b => inr b
              end)
    (fun x => match x with
              | inl (inl (inl _)) => NaN
              | inl (inl (inr z)) => Fin z
              | inl (inr (m, e)) => Frac m e
              | inr b => Infinity b
              end)
    (fun n => match n with
              | NaN | Fin _ | Frac _ _ | Infinity _ => eq_refl
              end).

Inductive value : Type :=
| Null
| Bool (b : bool)
| Num (n : num)
| Str (s : string)
| Arr (items : list value)
| Obj (fields : list (string * value)).

(** Own property of a parsed object: the first binding of the key. *)
Fixpoint assoc (k : string) (fields : list (string * value)) : option value :=
  match fields with
  | [] => None
  | (k', v) :: rest => if String.eqb k k' then Some v else assoc k rest
  end.

(** [v.k] for a value [v] that is not [null]; none of the names the program
    reads ([payloadType], [payload], [deal], [symbolId], ...) is a property of
    a string, an array, a number or a boolean. *)
Definition prop (v : value) (k : string) : option value :=
  match v with
  | Obj fields => assoc k fields
  | _ => None
  end.

(** [v?.k] *)
Definition opt (v : option value) (k : string) : option value :=
  match v with
  | None | Some Null => None
  | Some v => prop v k
  end.

(** [a ?? b] *)
Definition coalesce (a b : option value) : option value :=
  match a with
  | None | Some Null => b
  | Some _ => a
  end.

Infix "??" := coalesce (at level 45, right associativity).

(** *** Rounding to a double *)

(** The integer nearest to [n / d], ties to the even one ([0 <= n], [0 < d]). *)
Definition nearest (n d : Z) : Z :=
  let q := n / d in
  let r := n mod d in
  if 2 * r <? d then q
  else if d <? 2 * r then q + 1
  else if Z.even q then q else q + 1.

(** [m / 2^e] in lowest terms, for [m] other than 0. *)
Fixpoint halve (fuel : nat) (m e : Z) : num :=
  if e <=? 0 then Fin m
  else
    match fuel with
    | S fuel => if Z.even m then halve fuel (m / 2) (e - 1) else Frac m (Z.to_pos e)
    | O => Frac m (Z.to_pos e)
    end.

(** [m * 2^p] *)
Definition scaled (m p : Z) : num :=
  if 0 <=? p then Fin (m * 2 ^ p)
  else if m =? 0 then Fin 0
  else halve (Z.to_nat (- p)) m (- p).

(** The double nearest to the rational [n / d] ([0 < d]), ties to the even
    significand: 53 bits, exponents down to the subnormal spacing 2^-1074,
    an infinity from 2^1024 on. *)
Definition to_double (n d : Z) : num :=
  if n =? 0 then Fin 0
  else
    let a := Z.abs n in
    let k0 := Z.log2 a - Z.log2 d in
    let below := if 0 <=? k0 then a <? d * 2 ^ k0 else a * 2 ^ (- k0) <? d in
    let k := if below then k0 - 1 else k0 in
    let p := Z.max (k - 52) (-1074) in
    let M := if 0 <=? p then nearest a (d * 2 ^ p) else nearest (a * 2 ^ (- p)) d in
    if (0 <=? p) && (2 ^ 1024 <=? M * 2 ^ p) then Infinity (n <? 0)
    else scaled (Z.sgn n * M) p.

(** [- a] *)
Definition negate (a : num) : num :=
  match a with
  | NaN => NaN
  | Fin z => Fin (- z)
  | Frac m e => Frac (- m) e
  | Infinity b => Infinity (negb b)
  end.

(** *** [Number(s)] for a string

    White space is trimmed at both ends; what is left is nothing (0),
    [Infinity] with an optional sign, a binary, octal or hexadecimal integer
    behind [0b], [0o] or [0x] (no sign), or a decimal literal: an optional
    sign, digits with an optional fraction or a fraction alone, and an
    optional exponent.  Anything else is [NaN].  The value is rounded to the
    nearest double. *)

Definition code (c : ascii) : Z := Z.of_N (N_of_ascii c).

(** Tab, line feed, vertical tab, form feed, carriage return, space and
    no-break space. *)
Definition is_space (c : ascii) : bool :=
  let n := code c in
  ((9 <=? n) && (n <=? 13)) || (n =? 32) || (n =? 160).

Fixpoint trim_start (cs : list ascii) : list ascii :=
  match cs with
  | c :: rest => if is_space c then trim_start rest else cs
  | [] => []
  end.

Definition trim (cs : list ascii) : list ascii :=
  rev (trim_start (rev (trim_start cs))).

(** The value of a digit, letters counting from 10. *)
Definition digit_of (c : ascii) : option Z :=
  let n := code c in
  if (48 <=? n) && (n <=? 57) then Some (n - 48)
  else if (97 <=? n) && (n <=? 102) then Some (n - 87)
  else if (65 <=? n) && (n <=? 70) then Some (n - 55)
  else None.

(** The integer the characters spell in the radix; [None] when one of them
    is no digit of it. *)
Fixpoint digits (radix : Z) (cs : list ascii) (acc : Z) : option Z :=
  match cs with
  | [] => Some acc
  | c :: rest =>
      match digit_of c with
      | Some d => if d <? radix then digits radix rest (radix * acc + d) else None
      | None => None
      end
  end.

(** The decimal digits at the head: their value on top of [acc], how many
    they are, and what follows them. *)
Fixpoint leading (cs : list ascii) (acc count : Z) : Z * Z * list ascii :=
  match cs with
  | c :: rest =>
      let n := code c in
      if (48 <=? n) && (n <=? 57) then leading rest (10 * acc + (n - 48)) (count + 1)
      else (acc, count, cs)
  | [] => (acc, count, [])
  end.

(** The exponent part, or nothing: the power of ten it names. *)
Definition exponent (cs : list ascii) : option Z :=
  match cs with
  | [] => Some 0
  | c :: rest =>
      if (code c =? 101) || (code c =? 69) then
        match rest with
        | [] => None
        | s :: ds =>
            if code s =? 45 then
              match ds with [] => None | _ :: _ => option_map Z.opp (digits 10 ds 0) end
            else if code s =? 43 then
              match ds with [] => None | _ :: _ => digits 10 ds 0 end
            else digits 10 rest 0
        end
      else None
  end.

(** An unsigned decimal literal. *)
Definition decimal (cs : list ascii) : num :=
  let '(i, ni, r1) := leading cs 0 0 in
  match r1 with
  | c :: r2 =>
      if code c =? 46 then
        let '(f, nf, r3) := leading r2 i 0 in
        if ni + nf =? 0 then NaN
        else
          match exponent r3 with
          | Some x =>
              if 0 <=? x - nf then to_double (f * 10 ^ (x - nf)) 1
              else to_double f (10 ^ (nf - x))
          | None => NaN
          end
      else if ni =? 0 then NaN
      else
        match exponent r1 with
        | Some x => if 0 <=? x then to_double (i * 10 ^ x) 1 else to_double i (10 ^ (- x))
        | None => NaN
        end
  | [] => if ni =? 0 then NaN else to_double i 1
  end.

Definition unsigned (cs : list ascii) : num :=
  if bool_decide (cs = String.list_ascii_of_string "Infinity") then Infinity false
  else decimal cs.

(** An integer behind a radix prefix; [None] when there is no such prefix. *)
Definition prefixed (cs : list ascii) : option num :=
  match cs with
  | z :: x :: ds =>
      if code z =? 48 then
        let radix :=
          if (code x =? 120) || (code x =? 88) then 16
          else if (code x =? 111) || (code x =? 79) then 8
          else if (code x =? 98) || (code x =? 66) then 2
          else 0 in
        if radix =? 0 then None
        else
          Some (match ds with
                | [] => NaN
                | _ :: _ =>
                    match digits radix ds 0 with
                    | Some v => to_double v 1
                    | None => NaN
                    end
                end)
      else None
  | _ => None
  end.

Definition StringToNumber (s : string) : num :=
  let cs := trim (String.list_ascii_of_string s) in
  match cs with
  | [] => Fin 0
  | c :: rest =>
      match prefixed cs with
      | Some n => n
      | None =>
          if code c =? 45 then negate (unsigned rest)
          else if code c =? 43 then unsigned rest
          else unsigned cs
      end
  end.

(** [Number(v)] for a value that is not [undefined]; an array converts
    through its string, an object to [NaN].  (An object with an own property
    [toString] has no primitive value: converting it throws.  Such objects
    are not told apart here.) *)
Fixpoint ToNumber (v : value) : num :=
  match v with
  | Null => Fin 0
  | Bool b => Fin (if b then 1 else 0)
  | Num n => n
  | Str s => StringToNumber s
  | Arr [] => Fin 0
  | Arr [x] =>
      match x with
      | Null => Fin 0
      | Bool _ | Obj _ => NaN
      | _ => ToNumber x
      end
  | Arr _ => NaN
  | Obj _ => NaN
  end.

(** [Number(v)] *)
Definition Number (v : option value) : num :=
  match v with
  | None => NaN
  | Some v => ToNumber v
  end.

(** A number that is truthy: not [NaN], not 0. *)
Definition nonzero (n : num) : option num :=
  match n with
  | NaN => None
  | Fin z => if z =? 0 then None else Some n
  | Frac _ _ | Infinity _ => Some n
  end.

(** Truthiness of a value. *)
Definition truthy (v : option value) : bool :=
  match v with
  | None | Some Null => false
  | Some (Bool b) => b
  | Some (Num n) => bool_decide (is_Some (nonzero n))
  | Some (Str s) => negb (String.eqb s "")
  | Some (Arr _) | Some (Obj _) => true
  end.

(** [a === b] for an integer [b]: [NaN] equals nothing, and no fraction or
    infinity an integer. *)
Definition num_eqb (a : num) (b : Z) : bool :=
  match a with
  | Fin z => z =? b
  | _ => false
  end.

(** The order of two numbers, none when one of them is [NaN]. *)
Definition num_compare (a b : num) : option comparison :=
  match a, b with
  | NaN, _ | _, NaN => None
  | Infinity s, Infinity s' =>
      Some (if s then if s' then Eq else Lt else if s' then Gt else Eq)
  | Infinity s, _ => Some (if s then Lt else Gt)
  | _, Infinity s => Some (if s then Gt else Lt)
  | Fin x, Fin y => Some (x ?= y)
  | Fin x, Frac m e => Some (x * 2 ^ Z.pos e ?= m)
  | Frac m e, Fin y => Some (m ?= y * 2 ^ Z.pos e)
  | Frac m e, Frac m' e' => Some (m * 2 ^ Z.pos e' ?= m' * 2 ^ Z.pos e)
  end.

(** [a >= b] and [a < b] on numbers: false when either side is [NaN]. *)
Definition num_geb (a b : num) : bool :=
  match a, b with
  | Fin x, Fin y => y <=? x
  | _, _ =>
      match num_compare a b with
      | Some Lt | None => false
      | Some _ => true
      end
  end.

Definition num_ltb (a b : num) : bool :=
  match a, b with
  | Fin x, Fin y => x <? y
  | _, _ =>
      match num_compare a b with
      | Some Lt => true
      | _ => false
      end
  end.

(** [a + 1], rounded as the addition of doubles is. *)
Definition num_succ (a : num) : num :=
  match a with
  | NaN => NaN
  | Fin z => to_double (z + 1) 1
  | Frac m e => to_double (m + 2 ^ Z.pos e) (2 ^ Z.pos e)
  | Infinity b => Infinity b
  end.

(** [Math.max(...ns)]: [NaN] as soon as one argument is, -Infinity on no
    argument. *)
Definition max2 (a b : num) : num :=
  match num_compare a b with
  | None => NaN
  | Some Lt => b
  | Some _ => a
  end.

Fixpoint Math_max (ns : list num) : num :=
  match ns with
  | [] => Infinity true
  | n :: rest => max2 n (Math_max rest)
  end.

(** ** Errors, events and the state of one sync call *)

(** What [`cTrader error (${pt}): ${...}`] shows after the colon: the first of
    [payload?.description], [payload?.errorCode] that is neither [null] nor
    [undefined], else [JSON.stringify(payload)]. *)
Inductive detail : Type :=
| Description (v : value)
| ErrorCode (v : value)
| Serialized (payload : option value).

(** The [Error] objects the program makes, by message, and the [TypeError]
    the runtime throws on a property read of [null], on a spread or
    [for...of] over a value that is not iterable, and on a call of a method
    the value does not have. *)
Inductive error : Type :=
| ConnectTimeout (host : value)
| ConnectError (message : string)
| WaitTimeout (wantType : Z)
| RemoteError (pt : num) (d : detail)
| TypeError.

(** What may happen next on the connection: it opens, it fails, the timer of
    the pending operation elapses, one inbound unit arrives ([None] when
    [JSON.parse] throws on it), or the socket has been idle for the time set
    with [setTimeout] and emits ['timeout']. *)
Inductive event : Type :=
| Open
| Failed (message : string)
| Elapsed
| Message (data : option value)
| Idle.

(** What the program does to the outside: it starts a connection, arms the
    idle timer of the socket with a listener that destroys it ([part_000]),
    sends a message, closes the socket ([ws.terminate()], [sock.destroy()]).
    [sendMsg]'s [clientMsgId] is a time stamp and is left out. *)
Inductive action : Type :=
| Connect (host : value)
| SetTimeout (ms : Z)
| Send (payloadType : Z) (payload : value)
| Terminate.

(** Whether the idle timer is armed on the socket in use: [setTimeout] arms
    it, closing the socket clears it, and a new connection starts without
    one. *)
Definition idle_armed (tr : list action) : bool :=
  fold_left (fun armed a =>
               match a with
               | Connect _ | Terminate => false
               | SetTimeout _ => true
               | Send _ _ => armed
               end) tr false.

(** [inbox]: the events still to come, in order; [trace]: the actions so far,
    oldest first; [symbols] and [lotSizes]: the two objects [syncAccount]
    fills, keyed by the number [id] ([symbols[id] = name]: the key is the
    string of [id], and two truthy numbers have different strings). *)
Record state : Type := State {
  inbox : list event;
  trace : list action;
  symbols : gmap num value;
  lotSizes : gmap num num
}.

Definition set_inbox (evs : list event) (st : state) : state :=
  State evs (trace st) (symbols st) (lotSizes st).
Definition log (a : action) (st : state) : state :=
  State (inbox st) (trace st ++ [a]) (symbols st) (lotSizes st).
Definition set_symbols (m : gmap num value) (st : state) : state :=
  State (inbox st) (trace st) m (lotSizes st).
Definition set_lotSizes (m : gmap num num) (st : state) : state :=
  State (inbox st) (trace st) (symbols st) m.

(** A computation returns, throws, or throws inside an event listener, where
    nothing catches it and the process dies ([Crash]). *)
Inductive outcome (A : Type) : Type :=
| Ok (a : A)
| Throw (e : error)
| Crash.
Arguments Ok {A} a.
Arguments Throw {A} e.
Arguments Crash {A}.

Definition M (A : Type) : Type := state -> outcome A * state.

Definition ret {A} (a : A) : M A := fun st => (Ok a, st).
Definition throw {A} (e : error) : M A := fun st => (Throw e, st).
Definition lift {A} (o : outcome A) : M A := fun st => (o, st).

Definition bind {A B} (m : M A) (k : A -> M B) : M B :=
  fun st =>
    match m st with
    | (Ok a, st') => k a st'
    | (Throw e, st') => (Throw e, st')
    | (Crash, st') => (Crash, st')
    end.

(** [try { m } catch (e) { h e }] *)
Definition try_catch {A} (m : M A) (h : error -> M A) : M A :=
  fun st =>
    match m st with
    | (Throw e, st') => h e st'
    | r => r
    end.

(** [try { m } finally { f }], for an [f] that returns normally. *)
Definition try_finally {A} (m : M A) (f : M unit) : M A :=
  fun st =>
    match m st with
    | (Crash, st') => (Crash, st')
    | (r, st') => (r, snd (f st'))
    end.

Notation "x <- m ;; k" := (bind m (fun x => k))
  (at level 100, m at next level, right associativity).
Notation "m ;;; k" := (bind m (fun _ => k))
  (at level 100, right associativity).

(** [for (const x of l) body(x)] *)
Fixpoint for_each {A} (body : A -> M unit) (l : list A) : M unit :=
  match l with
  | [] => ret tt
  | x :: rest => body x ;;; for_each body rest
  end.

(** ** Reading values the way the program does *)

(** [v.length] *)
Definition length_of (v : option value) : option value :=
  match v with
  | Some (Arr l) => Some (Num (Fin (Z.of_nat (length l))))
  | Some (Str s) => Some (Num (Fin (Z.of_nat (String.length s))))
  | Some (Obj fields) => assoc "length" fields
  | _ => None
  end.

(** The characters of a string, each a string of its own (with code units
    below 256, code units, code points and characters coincide). *)
Fixpoint chars (s : string) : list value :=
  match s with
  | EmptyString => []
  | String c rest => Str (String c EmptyString) :: chars rest
  end.

(** The elements [...v] and [for (const x of v)] go through. *)
Definition iterate (v : option value) : outcome (list value) :=
  match v with
  | Some (Arr l) => Ok l
  | Some (Str s) => Ok (chars s)
  | _ => Throw TypeError
  end.

(** [l.map(f)] on the elements of an array, for an [f] that may throw. *)
Fixpoint map_js {B} (f : value -> outcome B) (l : list value) : outcome (list B) :=
  match l with
  | [] => Ok []
  | x :: rest =>
      match f x with
      | Ok y =>
          match map_js f rest with
          | Ok ys => Ok (y :: ys)
          | Throw e => Throw e
          | Crash => Crash
          end
      | Throw e => Throw e
      | Crash => Crash
      end
  end.

(** [v.map(f)]: only an array has the method. *)
Definition array_map {B} (f : value -> outcome B) (v : option value) : outcome (list B) :=
  match v with
  | Some (Arr l) => map_js f l
  | _ => Throw TypeError
  end.

(** [[...new Set(l)]]: the first occurrence of each element, in order. *)
Fixpoint dedup (seen l : list num) : list num :=
  match l with
  | [] => []
  | x :: rest =>
      if bool_decide (x ∈ seen) then dedup seen rest else x :: dedup (x :: seen) rest
  end.

Definition zero : option value := Some (Num (Fin 0)).
Definition number (z : Z) : value := Num (Fin z).

(** ** The correlator: one pending [waitFor]

    A pending wait is the promise's slot, the timer and the listener
    registered on the message stream.  The three variants differ in where the
    unit is parsed (in the listener, or in the frame reader before it). *)

Inductive settlement : Type :=
| Resolved (msg : value)
| Rejected (e : error).

Record pending : Type := Pending {
  wantType : Z;
  timer : bool;         (* the timeout is armed *)
  listening : bool;     (* [handler] is registered *)
  slot : option settlement
}.

(** The state [new Promise(...)] leaves behind in [waitFor]. *)
Definition fresh (wantType : Z) : pending := Pending wantType true true None.

(** [clearTimeout(t); ws.off('message', handler); resolve(..)] or
    [reject(..)]: a promise keeps its first settlement. *)
Definition settle (s : settlement) (p : pending) : pending :=
  Pending (wantType p) false false
    (match slot p with None => Some s | Some old => Some old end).

(** [msg.payload?.description ?? msg.payload?.errorCode ?? JSON.stringify(msg.payload)] *)
Definition error_detail (msg : value) : detail :=
  let payload := prop msg "payload" in
  match opt payload "description" ?? None with
  | Some v => Description v
  | None =>
      match opt payload "errorCode" ?? None with
      | Some v => ErrorCode v
      | None => Serialized payload
      end
  end.

(** [Number(msg.payloadType ?? 0)]; [None] when the read throws, on a unit
    that parses to [null]. *)
Definition payloadType_of (msg : value) : option num :=
  match msg with
  | Null => None
  | _ => Some (Number (prop msg "payloadType" ?? zero))
  end.

(** [handler(data)]; [None] when the listener throws. *)
Definition handler (p : pending) (data : option value) : option pending :=
  match data with
  | None => Some p
  | Some msg =>
      match payloadType_of msg with
      | None => None
      | Some pt =>
          if num_eqb pt (wantType p) then Some (settle (Resolved msg) p)
          else if num_eqb pt 50 || num_eqb pt 2142 then
            Some (settle (Rejected (RemoteError pt (error_detail msg))) p)
          else Some p
      end
  end.

(** One event reaches the pending wait: a message goes to the listener if it
    is still registered, the timer's callback runs if it is still armed. *)
Definition deliver (p : pending) (ev : event) : option pending :=
  match ev with
  | Message data => if listening p then handler p data else Some p
  | Elapsed =>
      Some (if timer p then settle (Rejected (WaitTimeout (wantType p))) p else p)
  | Open | Failed _ | Idle => Some p
  end.

(** Events are delivered until the promise settles; when nothing more
    arrives, the timer elapses.  The events after the settling one stay in
    the inbox: the continuation of the [await] runs, and registers the next
    wait, before another event is delivered. *)
Fixpoint pump (p : pending) (evs : list event) : option pending * list event :=
  match evs with
  | [] => (deliver p Elapsed, [])
  | ev :: rest =>
      match deliver p ev with
      | None => (None, rest)
      | Some p' =>
          match slot p' with
          | Some _ => (Some p', rest)
          | None => pump p' rest
          end
      end
  end.

(** What still arrives once the socket is destroyed: no data and no idle
    event. *)
Definition muted (evs : list event) : list event :=
  List.filter (fun ev => match ev with Message _ | Idle => false | _ => true end) evs.

(** The same with the idle timer armed: at the first idle event before the
    promise settles, the listener [connectCtrader] left on the socket
    destroys it (the flag returned), and the wait goes on with what still
    arrives. *)
Fixpoint pump_idle (p : pending) (evs : list event)
  : option pending * list event * bool :=
  match evs with
  | [] => (deliver p Elapsed, [], false)
  | Idle :: rest => (pump p (muted rest), true)
  | ev :: rest =>
      match deliver p ev with
      | None => (None, rest, false)
      | Some p' =>
          match slot p' with
          | Some _ => (Some p', rest, false)
          | None => pump_idle p' rest
          end
      end
  end.

(** [await waitFor(ws, wantType, timeoutMs)] *)
Definition waitFor (wantType : Z) (timeoutMs : Z) : M value :=
  fun st =>
    let r := if idle_armed (trace st) then pump_idle (fresh wantType) (inbox st)
             else (pump (fresh wantType) (inbox st), false) in
    let st := if snd r then log Terminate st else st in
    match fst r with
    | (None, rest) => (Crash, set_inbox rest st)
    | (Some p, rest) =>
        (match slot p with
         | Some (Resolved msg) => Ok msg
         | Some (Rejected e) => Throw e
         | None => Throw (WaitTimeout wantType)
         end, set_inbox rest st)
    end.

(** [sendMsg(ws, payloadType, payload)] *)
Definition sendMsg (payloadType : Z) (payload : value) : M unit :=
  fun st => (Ok tt, log (Send payloadType payload) st).

(** [ws.terminate()] *)
Definition terminate : M unit := fun st => (Ok tt, log Terminate st).

(** ** Transport and pagination, as the variants share them *)

(** The argument of [syncAccount]: four values of the request body as they
    came, three coerced with [Number]. *)
Record account : Type := Account {
  host : value;
  clientId : value;
  clientSecret : value;
  accessToken : value;
  ctidAccountId : num;
  fromTimestamp : num;
  toTimestamp : num
}.

Inductive opened : Type :=
| Opened
| OpenFailed (message : string)
| OpenTimeout.

(** The first of ['open'], ['error'] and the 12 s timer decides the
    connection attempt; no message listener is registered yet, and a
    WebSocket has no idle timer. *)
Fixpoint await_open (evs : list event) : opened * list event :=
  match evs with
  | [] => (OpenTimeout, [])
  | Open :: rest => (Opened, rest)
  | Failed m :: rest => (OpenFailed m, rest)
  | Elapsed :: rest => (OpenTimeout, rest)
  | Message _ :: rest | Idle :: rest => await_open rest
  end.

(** [await connectWS(host)] ([index.js], [part_001]); on the timeout the
    callback terminates the socket before it rejects. *)
Definition connectWS (host : value) : M unit :=
  fun st =>
    let st := log (Connect host) st in
    match await_open (inbox st) with
    | (Opened, rest) => (Ok tt, set_inbox rest st)
    | (OpenFailed m, rest) => (Throw (ConnectError m), set_inbox rest st)
    | (OpenTimeout, rest) => (Throw (ConnectTimeout host), log Terminate (set_inbox rest st))
    end.

(** [d => Number(d.executionTimestamp)] *)
Definition timestamp (d : value) : outcome num :=
  match d with
  | Null => Throw TypeError
  | _ => Ok (Number (prop d "executionTimestamp"))
  end.

(** Application and account authentication, the same in the three files. *)
Definition authenticate (a : account) : M unit :=
  sendMsg 2100 (Obj [("clientId", clientId a); ("clientSecret", clientSecret a)]) ;;;
  _ <- waitFor 2101 12000 ;;
  sendMsg 2102 (Obj [("ctidTraderAccountId", Num (ctidAccountId a));
                     ("accessToken", accessToken a)]) ;;;
  _ <- waitFor 2103 12000 ;;
  ret tt.

(** The payload of the symbol-list request. *)
Definition symbols_request (a : account) : value :=
  Obj [("ctidTraderAccountId", Num (ctidAccountId a));
       ("includeArchivedSymbols", Bool false)].

(** [r.payload?.deal ?? []] *)
Definition deals_of (r : value) : option value :=
  opt (prop r "payload") "deal" ?? Some (Arr []).

Section Pagination.

(** The deal-list request and response types: 2133 and 2134 in
    [index.js], 2155 and 2156 in the two others. *)
Variables (reqType resType : Z).
Variable a : account.

Definition deal_request (pageFrom : num) : value :=
  Obj [("ctidTraderAccountId", Num (ctidAccountId a));
       ("fromTimestamp", Num pageFrom);
       ("toTimestamp", Num (toTimestamp a));
       ("maxRows", number 500)].

(** [while (pages < 40) { ... }] with [allDeals], [pageFrom] and [pages]
    as they stand on entry; [fuel] bounds the iterations still to run. *)
Fixpoint deal_pages (fuel : nat) (allDeals : list value) (pageFrom : num) (pages : nat)
  : M (list value * nat) :=
  match fuel with
  | O => ret (allDeals, pages)
  | S fuel =>
      if (pages <? 40)%nat then
        sendMsg reqType (deal_request pageFrom) ;;;
        r <- waitFor resType 20000 ;;
        let deals := deals_of r in
        if negb (truthy (length_of deals)) then ret (allDeals, pages) else
        items <- lift (iterate deals) ;;
        let allDeals := allDeals ++ items in
        let pages := S pages in
        if num_ltb (Number (length_of deals)) (Fin 500) then ret (allDeals, pages) else
        ts <- lift (array_map timestamp deals) ;;
        let pageFrom := num_succ (Math_max ts) in
        if num_geb pageFrom (toTimestamp a) then ret (allDeals, pages) else
        deal_pages fuel allDeals pageFrom pages
      else ret (allDeals, pages)
  end.

(** The loop as [syncAccount] runs it. *)
Definition fetch_deals : M (list value * nat) :=
  deal_pages 40 [] (fromTimestamp a) 0.

End Pagination.

(** The seven fields [/sync] requires, and the filter that finds the ones
    [undefined], [null] or [''] in the request body. *)
Definition required : list string :=
  ["host"; "clientId"; "clientSecret"; "accessToken"; "ctidAccountId";
   "fromTimestamp"; "toTimestamp"].

Definition is_missing (body : value) (k : string) : bool :=
  match prop body k with
  | None | Some Null | Some (Str EmptyString) => true
  | Some _ => false
  end.

Definition missing (body : value) : list string :=
  List.filter (is_missing body) required.

(** The destructured fields passed on to [syncAccount]; the route reads them
    only when none is missing, so [Null] stands for no read. *)
Definition account_of (body : value) : account :=
  let field k := default Null (prop body k) in
  {| host := field "host";
     clientId := field "clientId";
     clientSecret := field "clientSecret";
     accessToken := field "accessToken";
     ctidAccountId := Number (prop body "ctidAccountId");
     fromTimestamp := Number (prop body "fromTimestamp");
     toTimestamp := Number (prop body "toTimestamp") |}.

(** What [res.json] sends: [{ ok: true, ...result }],
    [{ ok: false, error: `<prefix>${missing.join(', ')}` }] or
    [{ ok: false, error: e.message }]. *)
Inductive reply (R : Type) : Type :=
| Accepted (r : R)
| Refused (error : string)
| Failure (e : error).
Arguments Accepted {R} r.
Arguments Refused {R} error.
Arguments Failure {R} e.

(** The route [app.post('/sync', ...)] around a [syncAccount], on
    [req.body] ([None] when no body was parsed).  The destructuring at its
    head throws on [undefined] and [null], outside the [try]: the handler's
    promise rejects and the route sends nothing. *)
Definition route {R} (prefix : string) (syncAccount : account -> M R)
    (req_body : option value) : M (reply R) :=
  match req_body with
  | None | Some Null => throw TypeError
  | Some body =>
      match missing body with
      | [] =>
          try_catch
            (result <- syncAccount (account_of body) ;; ret (Accepted result))
            (fun e => ret (Failure e))
      | _ :: _ => ret (Refused (prefix +:+ String.concat ", " (missing body)))
      end
  end.

(** ** The shared-secret middleware, the same in the three files *)

(** What the middleware reads of a request: [req.path], the header
    [req.headers['x-relay-secret']] ([None] when the request has none) and
    [req.body] ([None] when no body was parsed). *)
Record request : Type := Request {
  path : string;
  secret_header : option string;
  body : option value
}.

(** [next()] or [res.status(401).json({ ok: false, error: 'Unauthorized' })]. *)
Inductive verdict : Type :=
| Next
| Unauthorized.

(** [req.headers['x-relay-secret'] || req.body?.secret]: the header when it
    is a string that is not empty, else the [secret] of the body. *)
Definition secret_of (req : request) : option value :=
  match secret_header req with
  | Some h => if String.eqb h "" then opt (body req) "secret" else Some (Str h)
  | None => opt (body req) "secret"
  end.

(** [secret !== RELAY_SECRET] *)
Definition differs (secret : option value) (RELAY_SECRET : string) : bool :=
  match secret with
  | Some (Str s) => negb (String.eqb s RELAY_SECRET)
  | _ => true
  end.

(** The middleware [app.use((req, res, next) => ...)], with [RELAY_SECRET]
    the string [process.env.RELAY_SECRET || '']. *)
Definition middleware (RELAY_SECRET : string) (req : request) : verdict :=
  if String.eqb (path req) "/health" then Next
  else if String.eqb RELAY_SECRET "" || differs (secret_of req) RELAY_SECRET
       then Unauthorized
       else Next.

(** ** [src/index.js] *)

Module Relay.

(** [{ deals: allDeals, symbols, lotSizes, pages, total: allDeals.length }];
    [names] and [lots] are its fields [symbols] and [lotSizes]. *)
Record result : Type := Result {
  deals : list value;
  names : gmap num value;
  lots : gmap num num;
  pages : nat;
  total : nat
}.

(** [const symbols = {}; const lotSizes = {};] *)
Definition new_tables : M unit :=
  fun st => (Ok tt, set_lotSizes ∅ (set_symbols ∅ st)).

(** [symbols[id] = name] and [lotSizes[id] = lot] *)
Definition put_symbol (id : num) (name : value) : M unit :=
  fun st => (Ok tt, set_symbols (<[id := name]> (symbols st)) st).

Definition put_lotSize (id lot : num) : M unit :=
  fun st => (Ok tt, set_lotSizes (<[id := lot]> (lotSizes st)) st).

(** Lines 106-108, the body of the loop over the symbol list. *)
Definition symbol_entry (s : value) : M unit :=
  match s with
  | Null => throw TypeError
  | _ =>
      let id := Number (prop s "symbolId" ?? prop s "id" ?? zero) in
      let name := prop s "symbolName" ?? prop s "name" ?? Some Null in
      match nonzero id, name with
      | Some id, Some name => if truthy (Some name) then put_symbol id name else ret tt
      | _, _ => ret tt
      end
  end.

(** Lines 146-151, the body of the loop over the symbol details. *)
Definition detail_entry (d : value) : M unit :=
  match d with
  | Null => throw TypeError
  | _ =>
      let id := Number (prop d "symbolId" ?? zero) in
      let lot := Number (prop d "lotSize" ?? zero) in
      let nm := prop d "symbolName" ?? prop d "name" ?? Some Null in
      (match nonzero id, nonzero lot with
       | Some id, Some lot => put_lotSize id lot
       | _, _ => ret tt
       end) ;;;
      (fun st =>
         match nonzero id, nm with
         | Some id, Some name =>
             if truthy (Some name) && negb (truthy (symbols st !! id))
             then put_symbol id name st else (Ok tt, st)
         | _, _ => (Ok tt, st)
         end)
  end.

(** [d => Number(d.symbolId ?? 0)] *)
Definition symbolId_of (d : value) : outcome num :=
  match d with
  | Null => Throw TypeError
  | _ => Ok (Number (prop d "symbolId" ?? zero))
  end.

Section Sync.

Variable a : account.

(** Lines 101-114: the symbol list, in its [try]/[catch]. *)
Definition symbol_list : M unit :=
  try_catch
    (sendMsg 2119 (symbols_request a) ;;;
     symRes <- waitFor 2120 20000 ;;
     let payload := prop symRes "payload" in
     let symList := opt payload "symbol" ?? opt payload "symbols" ?? Some (Arr []) in
     entries <- lift (iterate symList) ;;
     for_each symbol_entry entries)
    (fun e => ret tt).

(** Lines 141-153: [for (let i = 0; i < uniqueIds.length; i += 50)], one
    request and one response per chunk; [fuel] bounds the rounds. *)
Fixpoint detail_rounds (fuel : nat) (uniqueIds : list num) (i : nat) : M unit :=
  match fuel with
  | O => ret tt
  | S fuel =>
      if (i <? length uniqueIds)%nat then
        let chunk := take 50 (drop i uniqueIds) in
        sendMsg 2125 (Obj [("ctidTraderAccountId", Num (ctidAccountId a));
                           ("symbolId", Arr (map Num chunk))]) ;;;
        detRes <- waitFor 2126 15000 ;;
        entries <- lift (iterate (opt (prop detRes "payload") "symbolDetails" ?? Some (Arr []))) ;;
        for_each detail_entry entries ;;;
        detail_rounds fuel uniqueIds (i + 50)
      else ret tt
  end.

(** Lines 137-158: the symbol details for the identifiers found in the
    deals; only the rounds sit in the [try]. *)
Definition symbol_details (allDeals : list value) : M unit :=
  ids <- lift (map_js symbolId_of allDeals) ;;
  let uniqueIds := dedup [] (omap nonzero ids) in
  match uniqueIds with
  | [] => ret tt
  | _ :: _ =>
      try_catch (detail_rounds (length uniqueIds) uniqueIds 0) (fun e => ret tt)
  end.

(** Lines 116-161: what follows the symbol list inside the [try]. *)
Definition deals_and_details : M result :=
  r <- fetch_deals 2133 2134 a ;;
  let allDeals := fst r in
  symbol_details allDeals ;;;
  (fun st =>
     (Ok {| deals := allDeals; names := symbols st; lots := lotSizes st;
            pages := snd r; total := length allDeals |}, st)).

Definition syncAccount : M result :=
  connectWS (host a) ;;;
  try_finally
    (authenticate a ;;;
     new_tables ;;;
     symbol_list ;;;
     deals_and_details)
    terminate.

End Sync.

Definition post_sync : option value -> M (reply result) :=
  route "Missing: " syncAccount.

End Relay.

(** ** [src/unnamed/part_001]: no symbol list, no symbol details *)

Module Plain.

(** [{ deals: allDeals, symbols, pages, total: allDeals.length }], with
    [symbols] the empty object. *)
Record result : Type := Result {
  deals : list value;
  pages : nat;
  total : nat
}.

Definition syncAccount (a : account) : M result :=
  connectWS (host a) ;;;
  try_finally
    (authenticate a ;;;
     r <- fetch_deals 2155 2156 a ;;
     ret {| deals := fst r; pages := snd r; total := length (fst r) |})
    terminate.

Definition post_sync : option value -> M (reply result) :=
  route "Missing: " syncAccount.

End Plain.

(** ** [src/unnamed/part_000]: TLS socket and length-prefixed frames

    The reader turns the bytes of the socket into messages and hands each to
    the registered handlers; in [syncAccount] below a [Message] of the inbox
    is one message the reader hands over.  The socket's idle timer stays
    armed after the connection is made: [waitFor] above takes it into
    account. *)

Module Tcp.

Section FrameReader.

(** [JSON.parse(bytes.toString())], [None] when it throws. *)
Variable JSON_parse : list Byte.byte -> option value.

(** [buf.readUInt32BE(0)] on a buffer of at least four bytes. *)
Definition readUInt32BE (buf : list Byte.byte) : Z :=
  match buf with
  | b0 :: b1 :: b2 :: b3 :: _ =>
      Z.of_N (Byte.to_N b0) * 2 ^ 24 + Z.of_N (Byte.to_N b1) * 2 ^ 16
      + Z.of_N (Byte.to_N b2) * 2 ^ 8 + Z.of_N (Byte.to_N b3)
  | _ => 0
  end.

(** The [while (buf.length >= 4)] loop of the ['data'] listener: the
    buffer it leaves and the messages it hands to the handlers, in order.
    [fuel] bounds the iterations. *)
Fixpoint drain (fuel : nat) (buf : list Byte.byte) : list Byte.byte * list value :=
  match fuel with
  | O => (buf, [])
  | S fuel =>
      if (4 <=? length buf)%nat then
        let len := readUInt32BE buf in
        if (len <=? 0) || (2000000 <? len) then ([], [])
        else if (length buf <? 4 + Z.to_nat len)%nat then (buf, [])
        else
          match JSON_parse (take (Z.to_nat len) (drop 4 buf)) with
          | None => (buf, [])
          | Some msg =>
              let r := drain fuel (drop (4 + Z.to_nat len) buf) in
              (fst r, msg :: snd r)
          end
      else (buf, [])
  end.

(** The ['data'] listener on one chunk: [buf = Buffer.concat([buf, chunk])]
    and the loop; every iteration but the last removes at least five
    bytes. *)
Definition on_data (buf chunk : list Byte.byte) : list Byte.byte * list value :=
  drain (length (buf ++ chunk)) (buf ++ chunk).

(** The listener over the chunks the socket delivers, one call each, [buf]
    kept from one call to the next: the buffer left at the end and all the
    messages handed over. *)
Fixpoint feed (buf : list Byte.byte) (chunks : list (list Byte.byte))
  : list Byte.byte * list value :=
  match chunks with
  | [] => (buf, [])
  | chunk :: chunks =>
      let r := on_data buf chunk in
      let r' := feed (fst r) chunks in
      (fst r', snd r ++ snd r')
  end.

End FrameReader.

(** [{ deals: allDeals, symbols, pages, total: allDeals.length }]; [symbols]
    is kept as the assignments [symbols[String(s.symbolId)] = s.symbolName]
    in the order made. *)
Record result : Type := Result {
  deals : list value;
  symbols : list (option value * option value);
  pages : nat;
  total : nat
}.

(** The first of the connect callback, ['error'] and ['timeout'] decides
    the connection attempt: the only timer here is the idle timer of the
    socket. *)
Fixpoint await_connect (evs : list event) : opened * list event :=
  match evs with
  | [] => (OpenTimeout, [])
  | Open :: rest => (Opened, rest)
  | Failed m :: rest => (OpenFailed m, rest)
  | Idle :: rest => (OpenTimeout, rest)
  | Message _ :: rest | Elapsed :: rest => await_connect rest
  end.

(** [await connectCtrader(host)]: [tls.connect], then [sock.setTimeout(12000)]
    with a ['timeout'] listener that destroys the socket and rejects.  The
    listener and the timer stay on the socket when the connection is made. *)
Definition connectCtrader (host : value) : M unit :=
  fun st =>
    let st := log (SetTimeout 12000) (log (Connect host) st) in
    match await_connect (inbox st) with
    | (Opened, rest) => (Ok tt, set_inbox rest st)
    | (OpenFailed m, rest) => (Throw (ConnectError m), set_inbox rest st)
    | (OpenTimeout, rest) => (Throw (ConnectTimeout host), log Terminate (set_inbox rest st))
    end.

(** The body of the loop over the symbol list, lines 143-145. *)
Definition symbol_assignment (s : value) : outcome (option value * option value) :=
  match s with
  | Null => Throw TypeError
  | _ => Ok (prop s "symbolId", prop s "symbolName")
  end.

(** Lines 138-146: the symbol list.  Nothing catches a failure of the wait
    or of the loop. *)
Definition symbol_list (a : account) : M (list (option value * option value)) :=
  sendMsg 2119 (symbols_request a) ;;;
  symRes <- waitFor 2120 15000 ;;
  entries <- lift (iterate (opt (prop symRes "payload") "symbol" ?? Some (Arr []))) ;;
  lift (map_js symbol_assignment entries).

Definition syncAccount (a : account) : M result :=
  connectCtrader (host a) ;;;
  try_finally
    (authenticate a ;;;
     symbols <- symbol_list a ;;
     r <- fetch_deals 2155 2156 a ;;
     ret {| deals := fst r; symbols := symbols; pages := snd r; total := length (fst r) |})
    terminate.

Definition post_sync : option value -> M (reply result) :=
  route "Missing fields: " syncAccount.

(** *** [sendMsg] of [part_000]: the frame around a serialized message

    A JavaScript string is taken as the list of its code points (a
    well-formed string: [JSON.stringify] gives no other); it has fewer than
    2^32 code units, so [writeUInt32BE] never throws here. *)

(** The byte of value [z mod 256]. *)
Definition byte_of (z : Z) : Byte.byte :=
  default Byte.x00 (Byte.of_N (Z.to_N (z mod 256))).

(** The code units a code point takes in a string, and [body.length]. *)
Definition units_of (c : Z) : nat := if c <? 65536 then 1%nat else 2%nat.

Definition string_length (body : list Z) : nat :=
  foldr (fun c n => (units_of c + n)%nat) 0%nat body.

(** The UTF-8 bytes of a code point, and [Buffer.from(body)]. *)
Definition utf8 (c : Z) : list Byte.byte :=
  if c <? 128 then [byte_of c]
  else if c <? 2048 then [byte_of (192 + c / 64); byte_of (128 + c mod 64)]
  else if c <? 65536 then
    [byte_of (224 + c / 4096); byte_of (128 + (c / 64) mod 64); byte_of (128 + c mod 64)]
  else
    [byte_of (240 + c / 262144); byte_of (128 + (c / 4096) mod 64);
     byte_of (128 + (c / 64) mod 64); byte_of (128 + c mod 64)].

Definition Buffer_from (body : list Z) : list Byte.byte :=
  concat (map utf8 body).

(** [frame.writeUInt32BE(n, 0)]: the four bytes written. *)
Definition writeUInt32BE (n : Z) : list Byte.byte :=
  [byte_of (n / 2 ^ 24); byte_of (n / 2 ^ 16); byte_of (n / 2 ^ 8); byte_of n].

(** The frame [sendMsg] writes for the text [body]: a zeroed buffer of
    [4 + body.length] bytes, the length at its head, and as many bytes of
    [Buffer.from(body)] as fit behind it. *)
Definition frame (body : list Z) : list Byte.byte :=
  let n := string_length body in
  let src := Buffer_from body in
  writeUInt32BE (Z.of_nat n) ++ take n src ++ replicate (n - length src) Byte.x00.

(** *** The handler list of the reader

    A handler is known by its identity, here a number. *)

(** [on: (fn) => handlers.push(fn)] *)
Definition reader_on (fn : nat) (handlers : list nat) : list nat :=
  handlers ++ [fn].

(** [off: (fn) => { const i = handlers.indexOf(fn); if (i >= 0) handlers.splice(i, 1); }] *)
Fixpoint reader_off (fn : nat) (handlers : list nat) : list nat :=
  match handlers with
  | [] => []
  | h :: rest => if Nat.eqb h fn then rest else h :: reader_off fn rest
  end.

End Tcp.

(** ** Vocabulary of the statements *)

(** An event a pending wait for [want] lets pass: no message of the wanted
    type or of an error type, no timer (its own or the idle timer of the
    socket), nothing the listener throws on. *)
Definition unrelated (want : Z) (ev : event) : Prop :=
  match ev with
  | Message (Some msg) =>
      exists pt, payloadType_of msg = Some pt
        /\ num_eqb pt want = false /\ num_eqb pt 50 = false /\ num_eqb pt 2142 = false
  | Message None | Open | Failed _ => True
  | Elapsed | Idle => False
  end.

(** [msg] is a deal-list response whose [deal] field is the array [p]. *)
Definition page_of (resType : Z) (msg : value) (p : list value) : Prop :=
  payloadType_of msg = Some (Fin resType)
  /\ opt (prop msg "payload") "deal" = Some (Arr p).

(** [ev] delivers such a response. *)
Definition delivers_page (resType : Z) (ev : event) (p : list value) : Prop :=
  exists msg, ev = Message (Some msg) /\ page_of resType msg p.

(** The relations a run keeps between the state it starts in and the state
    it ends in: with no idle timer armed, the trace grows by requests only;
    nothing is added to the inbox. *)
Definition is_Send (a : action) : Prop :=
  match a with
  | Send _ _ => True
  | _ => False
  end.

Definition only_sends : relation state :=
  fun st st' =>
    idle_armed (trace st) = false ->
    exists l, trace st' = trace st ++ l /\ Forall is_Send l.

Definition only_consumes : relation state :=
  fun st st' => forall ev, In ev (inbox st') -> In ev (inbox st).

(** The trace only grows. *)
Definition extends : relation state :=
  fun st st' => exists l, trace st' = trace st ++ l.

Definition preserves {A} (R : relation state) (m : M A) : Prop :=
  forall st, R st (snd (m st)).

(** A page of exactly 500 records whose cursor stays short of
    [toTimestamp]: the loop asks for the next one. *)
Definition full_page (a : account) (p : list value) : Prop :=
  length p = 500%nat
  /\ exists ts, map_js timestamp p = Ok ts
       /\ num_geb (num_succ (Math_max ts)) (toTimestamp a) = false.

(** [p] is a page the loop appended: the elements of the [deal] field of a
    response of type [resType] found in [evs], and there is at least one. *)
Definition appended (resType : Z) (evs : list event) (p : list value) : Prop :=
  p <> []
  /\ exists msg, In (Message (Some msg)) evs
       /\ payloadType_of msg = Some (Fin resType)
       /\ iterate (deals_of msg) = Ok p.

(** The counts of a result: [total] is the length of [deals], and [deals]
    is made of [pages] appended pages. *)
Definition counted (resType : Z) (evs : list event) (deals : list value)
    (pages total : nat) : Prop :=
  total = length deals
  /\ exists ps,
       deals = concat ps /\ pages = length ps /\ Forall (appended resType evs) ps.

(** The first deal-list response has nothing to append: [!deals.length]. *)
Definition empty_page (msg : value) : Prop :=
  truthy (length_of (deals_of msg)) = false.

(** ** Sample inputs *)

Definition sample_account : account :=
  Account (Str "demo.ctraderapi.com") (Str "app") (Str "secret") (Str "token")
    (Fin 42) (Fin 0) (Fin 5000).

Definition sample_deal (executionTimestamp symbolId : Z) : value :=
  Obj [("dealId", number 1); ("executionTimestamp", number executionTimestamp);
       ("symbolId", number symbolId)].

Definition response (payloadType : Z) (payload : list (string * value)) : value :=
  Obj [("payloadType", number payloadType); ("payload", Obj payload)].

Definition start (evs : list event) : state := State evs [] ∅ ∅.

(** A page of [n] deals, all executed at [t]. *)
Definition sample_page (n : nat) (t : Z) : list value := replicate n (sample_deal t 7).

(** The two records of the backfill example. *)
Definition detail_7 : value :=
  Obj [("symbolId", number 7); ("name", Str "EURUSD_X"); ("lotSize", number 100000)].
Definition detail_9 : value :=
  Obj [("symbolId", number 9); ("name", Str "GBPUSD"); ("lotSize", number 100000)].

(** A stand-in for [JSON.parse] that accepts the text [{}] alone. *)
Definition only_empty_object (bytes : list Byte.byte) : option value :=
  match bytes with
  | [x7b; x7d]%byte => Some (Obj [])
  | _ => None
  end.

(** The cursor the loop computes behind a page:
    [Math.max(...deals.map(d => Number(d.executionTimestamp))) + 1]. *)
Definition cursor_after (p : list value) : num :=
  match map_js timestamp p with
  | Ok ts => num_succ (Math_max ts)
  | _ => NaN
  end.

(** A name that is known stays: what the symbol details keep of the symbol
    table. *)
Definition keeps_names : relation state :=
  fun st st' =>
    forall id v, symbols st !! id = Some v -> truthy (Some v) = true ->
                 symbols st' !! id = Some v.

(** No table has a falsy key (0 or [NaN]), a falsy name or a falsy lot size. *)
Definition clean (names : gmap num value) (lots : gmap num num) : Prop :=
  (forall id v, names !! id = Some v -> nonzero id = Some id /\ truthy (Some v) = true)
  /\ (forall id lot, lots !! id = Some lot -> nonzero id = Some id /\ nonzero lot = Some lot).

Definition stays_clean : relation state :=
  fun st st' => clean (symbols st) (lotSizes st) -> clean (symbols st') (lotSizes st').

(** The request for the batch of symbol details that starts at index [j]. *)
Definition details_request (a : account) (uniqueIds : list num) (j : nat) : action :=
  Send 2125 (Obj [("ctidTraderAccountId", Num (ctidAccountId a));
                  ("symbolId", Arr (map Num (take 50 (drop j uniqueIds))))]).

(** A well-formed frame of the wire carrying [msg]: four bytes giving the
    length of what follows, between 1 and 2,000,000, and a body that
    [JSON.parse] reads as [msg]. *)
Definition framed (JSON_parse : list Byte.byte -> option value)
    (f : list Byte.byte) (msg : value) : Prop :=
  4 < Z.of_nat (length f) <= 2000004
  /\ Tcp.readUInt32BE f = Z.of_nat (length f - 4)
  /\ JSON_parse (drop 4 f) = Some msg.

(** * Properties *)

(** ** The monad *)

Lemma bind_Ok {A B} (m : M A) (k : A -> M B) st a st' :
  m st = (Ok a, st') -> bind m k st = k a st'.
Proof. intros H. unfold bind. now rewrite H. Qed.

Lemma bind_Throw {A B} (m : M A) (k : A -> M B) st e st' :
  m st = (Throw e, st') -> bind m k st = (Throw e, st').
Proof. intros H. unfold bind. now rewrite H. Qed.

Lemma bind_Crash {A B} (m : M A) (k : A -> M B) st st' :
  m st = (Crash, st') -> bind m k st = (Crash, st').
Proof. intros H. unfold bind. now rewrite H. Qed.

Lemma bind_Ok_inv {A B} (m : M A) (k : A -> M B) st b st' :
  bind m k st = (Ok b, st') ->
  exists x st1, m st = (Ok x, st1) /\ k x st1 = (Ok b, st').
Proof.
  unfold bind. destruct (m st) as [[x|e|] st1]; intros H; try discriminate. eauto.
Qed.

Lemma bind_ext {A B} (m : M A) (k1 k2 : A -> M B) st :
  (forall x st', k1 x st' = k2 x st') -> bind m k1 st = bind m k2 st.
Proof. intros H. unfold bind. destruct (m st) as [[x|e|] st']; auto. Qed.

(** ** The correlator *)

Lemma deliver_unrelated want ev :
  unrelated want ev -> deliver (fresh want) ev = Some (fresh want).
Proof.
  destruct ev as [|m| |[msg|]|]; simpl; try tauto.
  intros (pt & -> & Hw & H50 & H2142). now rewrite Hw, H50, H2142.
Qed.

Lemma pump_unrelated want pre evs :
  Forall (unrelated want) pre ->
  pump (fresh want) (pre ++ evs) = pump (fresh want) evs.
Proof.
  induction 1 as [|ev pre Hev _ IH]; [reflexivity|].
  simpl app. destruct evs as [|ev' evs'] eqn:E.
  - rewrite app_nil_r in *. cbn [pump]. rewrite (deliver_unrelated _ _ Hev). simpl slot.
    exact IH.
  - cbn [pump]. rewrite (deliver_unrelated _ _ Hev). simpl slot. exact IH.
Qed.

Lemma pump_idle_unrelated want pre evs :
  Forall (unrelated want) pre ->
  pump_idle (fresh want) (pre ++ evs) = pump_idle (fresh want) evs.
Proof.
  induction 1 as [|ev pre Hev _ IH]; [reflexivity|].
  simpl app. pose proof (deliver_unrelated _ _ Hev) as E.
  destruct ev; cbn [unrelated] in Hev; try contradiction;
    cbn [pump_idle]; rewrite E; simpl slot; exact IH.
Qed.

(** Sending and waiting leave the idle timer as it is, unless it fires. *)
Lemma idle_armed_app tr l :
  Forall is_Send l -> idle_armed (tr ++ l) = idle_armed tr.
Proof.
  intros H. unfold idle_armed. rewrite fold_left_app.
  match goal with |- context [fold_left ?f tr false] => generalize (fold_left f tr false) end.
  induction H as [|a l Ha _ IH]; intros armed; [reflexivity|].
  destruct a; try contradiction. exact (IH armed).
Qed.

Lemma idle_armed_Terminate tr : idle_armed (tr ++ [Terminate]) = false.
Proof. unfold idle_armed. now rewrite fold_left_app. Qed.

Lemma idle_armed_Connect tr h : idle_armed (tr ++ [Connect h]) = false.
Proof. unfold idle_armed. now rewrite fold_left_app. Qed.

(** The wait settles at [ev], the first event it does not let pass. *)
Lemma waitFor_settles_at want t st pre ev rest p' :
  inbox st = pre ++ ev :: rest ->
  Forall (unrelated want) pre ->
  ev <> Idle ->
  deliver (fresh want) ev = Some p' ->
  is_Some (slot p') ->
  waitFor want t st
  = (match slot p' with
     | Some (Resolved msg) => Ok msg
     | Some (Rejected e) => Throw e
     | None => Throw (WaitTimeout want)
     end, set_inbox rest st).
Proof.
  intros Hin Hpre Hev Hd [s Hs]. unfold waitFor. rewrite Hin.
  destruct (idle_armed (trace st)).
  - rewrite (pump_idle_unrelated _ _ _ Hpre).
    destruct ev; try contradiction; cbn [pump_idle]; rewrite Hd, Hs; cbn [fst snd];
      rewrite Hs; reflexivity.
  - rewrite (pump_unrelated _ _ _ Hpre). cbn [pump]. rewrite Hd, Hs. cbn [fst snd].
    rewrite Hs. reflexivity.
Qed.

(** A settled wait has no timer and no listener: no event changes it. *)
Lemma deliver_settled want s ev :
  deliver (Pending want false false (Some s)) ev = Some (Pending want false false (Some s)).
Proof. now destruct ev. Qed.

Lemma waitFor_resolves want t st pre msg rest :
  inbox st = pre ++ Message (Some msg) :: rest ->
  Forall (unrelated want) pre ->
  payloadType_of msg = Some (Fin want) ->
  waitFor want t st = (Ok msg, set_inbox rest st).
Proof.
  intros Hin Hpre Hty.
  rewrite (waitFor_settles_at want t st pre (Message (Some msg)) rest
             (settle (Resolved msg) (fresh want)) Hin Hpre); try reflexivity; try discriminate.
  - cbn [deliver fresh listening handler wantType]. rewrite Hty. cbn [num_eqb].
    now rewrite Z.eqb_refl.
  - cbn. eauto.
Qed.

(** What a pending wait leaves alone: the tables, and the trace unless the
    idle timer is armed. *)
Lemma waitFor_tables want t st :
  let st' := snd (waitFor want t st) in
  symbols st' = symbols st /\ lotSizes st' = lotSizes st.
Proof.
  unfold waitFor. destruct (if idle_armed (trace st) then _ else _) as [[[p|] rest] []];
    cbn; try destruct (slot p) as [[]|]; auto.
Qed.

Lemma waitFor_frame want t st :
  idle_armed (trace st) = false ->
  let st' := snd (waitFor want t st) in
  trace st' = trace st /\ symbols st' = symbols st /\ lotSizes st' = lotSizes st.
Proof.
  intros H. unfold waitFor. rewrite H. destruct (pump _ _) as [[p|] rest]; simpl; auto.
Qed.

Lemma deliver_fresh want ev :
  deliver (fresh want) ev = None
  \/ deliver (fresh want) ev = Some (fresh want)
  \/ (exists e, deliver (fresh want) ev = Some (Pending want false false (Some (Rejected e))))
  \/ (exists msg, ev = Message (Some msg) /\ payloadType_of msg = Some (Fin want)
        /\ deliver (fresh want) ev = Some (Pending want false false (Some (Resolved msg)))).
Proof.
  destruct ev as [|m| |[msg|]|]; cbn [deliver fresh listening timer handler wantType]; auto.
  - right. right. left. eauto.
  - destruct (payloadType_of msg) as [pt|] eqn:E; [|now left].
    destruct pt as [|z|m e|b]; cbn [num_eqb orb]; try (now right; left).
    destruct (Z.eqb_spec z want) as [->|_].
    + right. right. right. exists msg. auto.
    + destruct ((z =? 50) || (z =? 2142)); [right; right; left; eauto | now right; left].
Qed.

(** A wait resolves only with a message of the wanted type that was in the
    inbox. *)
Lemma pump_resolved want evs p rest msg :
  pump (fresh want) evs = (Some p, rest) ->
  slot p = Some (Resolved msg) ->
  In (Message (Some msg)) evs /\ payloadType_of msg = Some (Fin want).
Proof.
  induction evs as [|ev evs IH]; cbn [pump].
  - cbn. intros [= <- _]. discriminate.
  - destruct (deliver_fresh want ev) as [E | [E | [(e & E) | (m & -> & Hty & E)]]]; rewrite E.
    + discriminate.
    + change (slot (fresh want)) with (@None settlement). cbv iota.
      intros H1 H2. destruct (IH H1 H2). split; [now right|assumption].
    + cbn [slot]. intros [= <- _]. discriminate.
    + cbn [slot]. intros [= <- _] [= <-]. split; [now left|assumption].
Qed.

(** On a destroyed socket the wait can only time out. *)
Lemma pump_muted want evs :
  exists rest,
    pump (fresh want) (muted evs)
    = (Some (Pending want false false (Some (Rejected (WaitTimeout want)))), rest).
Proof.
  induction evs as [|ev evs IH]; [now exists []|].
  destruct ev; cbn [muted List.filter]; fold (muted evs); try exact IH;
    cbn [pump deliver fresh timer slot]; try exact IH.
  eexists. reflexivity.
Qed.

Lemma pump_idle_fired want evs r rest :
  pump_idle (fresh want) evs = (r, rest, true) ->
  r = Some (Pending want false false (Some (Rejected (WaitTimeout want)))).
Proof.
  induction evs as [|ev evs IH]; cbn [pump_idle]; [intros [= _ _ ?]; discriminate|].
  destruct ev;
    try (match goal with |- context [deliver (fresh want) ?ev] =>
           destruct (deliver_fresh want ev) as [E | [E | [(e & E) | (m & _ & _ & E)]]] end;
         rewrite E; cbn [slot fresh]; try (intros [= _ _ ?]; discriminate); exact IH).
  destruct (pump_muted want evs) as (rest' & E). rewrite E. now intros [= <- _].
Qed.

Lemma pump_idle_resolved want evs p rest fired msg :
  pump_idle (fresh want) evs = (Some p, rest, fired) ->
  slot p = Some (Resolved msg) ->
  In (Message (Some msg)) evs /\ payloadType_of msg = Some (Fin want) /\ fired = false.
Proof.
  induction evs as [|ev evs IH]; cbn [pump_idle].
  - cbn. intros [= <- _ _]. discriminate.
  - destruct ev;
      try (match goal with |- context [deliver (fresh want) ?ev] =>
             destruct (deliver_fresh want ev) as [E | [E | [(e & E) | (m & Hm & Hty & E)]]] end;
           rewrite E; cbn [slot fresh];
           [ discriminate
           | intros H1 H2; destruct (IH H1 H2) as (? & ? & ?); repeat split; [now right|assumption..]
           | intros [= <- _ _]; discriminate
           | intros [= <- _ <-] [= <-]; repeat split; [left; congruence|assumption] ]).
    destruct (pump_muted want evs) as (rest' & E). rewrite E. intros [= <- _ _]. discriminate.
Qed.

Lemma waitFor_Ok_inv want t st msg st' :
  waitFor want t st = (Ok msg, st') ->
  In (Message (Some msg)) (inbox st) /\ payloadType_of msg = Some (Fin want).
Proof.
  unfold waitFor. destruct (idle_armed (trace st)).
  - destruct (pump_idle (fresh want) (inbox st)) as [[[p|] rest] fired] eqn:E; [|discriminate].
    cbn [fst snd]. destruct (slot p) as [[m|e]|] eqn:S; intros [= <- _].
    destruct (pump_idle_resolved _ _ _ _ _ _ E S) as (? & ? & _). auto.
  - destruct (pump (fresh want) (inbox st)) as [[p|] rest] eqn:E; [|discriminate].
    cbn [fst snd]. destruct (slot p) as [[m|e]|] eqn:S; intros [= <- _].
    eapply pump_resolved; eauto.
Qed.

(** The trace behind a wait: as it was, unless the idle timer was armed and
    fired; then the socket was destroyed and the wait timed out. *)
Lemma waitFor_trace want t st :
  trace (snd (waitFor want t st)) = trace st
  \/ (idle_armed (trace st) = true
      /\ trace (snd (waitFor want t st)) = trace st ++ [Terminate]
      /\ fst (waitFor want t st) = Throw (WaitTimeout want)).
Proof.
  unfold waitFor. destruct (idle_armed (trace st)).
  - destruct (pump_idle (fresh want) (inbox st)) as [[r rest] [|]] eqn:E; cbn [fst snd].
    + right. rewrite (pump_idle_fired _ _ _ _ E). cbn. auto.
    + left. destruct r as [p|]; reflexivity.
  - left. destruct (pump _ _) as [[p|] rest]; reflexivity.
Qed.

(** A wait always settles: the last case of [waitFor] is never taken. *)
Lemma pump_settles want evs p rest :
  pump (fresh want) evs = (Some p, rest) -> is_Some (slot p).
Proof.
  induction evs as [|ev evs IH]; cbn [pump].
  - cbn. intros [= <- _]. cbn. eauto.
  - destruct (deliver_fresh want ev) as [E | [E | [(e & E) | (m & _ & _ & E)]]]; rewrite E.
    + discriminate.
    + exact IH.
    + cbn [slot]. intros [= <- _]. cbn. eauto.
    + cbn [slot]. intros [= <- _]. cbn. eauto.
Qed.

Lemma deliver_rejects want err pt :
  payloadType_of err = Some (Fin pt) ->
  pt = 50 \/ pt = 2142 ->
  pt <> want ->
  deliver (fresh want) (Message (Some err))
  = Some (Pending want false false (Some (Rejected (RemoteError (Fin pt) (error_detail err))))).
Proof.
  intros Hty Hpt Hne. cbn [deliver fresh listening handler]. rewrite Hty. simpl.
  destruct (Z.eqb_spec pt want) as [|_]; [contradiction|].
  destruct Hpt as [-> | ->]; reflexivity.
Qed.

Lemma pump_rejects want pre err pt later :
  Forall (unrelated want) pre ->
  payloadType_of err = Some (Fin pt) ->
  pt = 50 \/ pt = 2142 ->
  pt <> want ->
  pump (fresh want) (pre ++ Message (Some err) :: later)
  = (Some (Pending want false false (Some (Rejected (RemoteError (Fin pt) (error_detail err))))),
     later).
Proof.
  intros Hpre Hty Hpt Hne. rewrite (pump_unrelated _ _ _ Hpre).
  cbn [pump deliver fresh listening handler]. rewrite Hty. simpl.
  destruct (Z.eqb_spec pt want) as [|_]; [contradiction|].
  destruct Hpt as [-> | ->]; reflexivity.
Qed.

(** C3 (correlator ordering).  A wait for the type [A] is pending and three
    messages arrive in this order: a heartbeat (type 51), a message of a type
    [B] that is neither [A] nor an error type, and a message of type [A].
    The heartbeat and the [B] message each leave the pending wait exactly as
    it was (timer armed, listener registered, promise unsettled), and the
    wait resolves with the [A] message, the events after it still to
    come. *)
Theorem waitFor_ordering (A B : Z) (hb mB mA : value) (rest : list event)
    (timeoutMs : Z) (st : state) :
  payloadType_of hb = Some (Fin 51) ->
  payloadType_of mB = Some (Fin B) ->
  payloadType_of mA = Some (Fin A) ->
  A <> 51 -> B <> A -> B <> 50 -> B <> 2142 ->
  inbox st = [Message (Some hb); Message (Some mB); Message (Some mA)] ++ rest ->
  deliver (fresh A) (Message (Some hb)) = Some (fresh A)
  /\ deliver (fresh A) (Message (Some mB)) = Some (fresh A)
  /\ waitFor A timeoutMs st = (Ok mA, set_inbox rest st).
Proof.
  intros Hhb HB HA HA51 HBA HB50 HB2142 Hin.
  assert (Uhb : unrelated A (Message (Some hb))).
  { exists (Fin 51). cbn [num_eqb]. repeat apply conj; [assumption| |reflexivity|reflexivity].
    apply Z.eqb_neq. congruence. }
  assert (UB : unrelated A (Message (Some mB))).
  { exists (Fin B). cbn [num_eqb]. repeat apply conj; [assumption|..]; now apply Z.eqb_neq. }
  split; [|split]; try now apply deliver_unrelated.
  apply (waitFor_resolves A timeoutMs st [Message (Some hb); Message (Some mB)] mA rest);
    [exact Hin | repeat constructor; assumption | exact HA].
Qed.

Lemma waitFor_ordering_witness :
  let hb := Obj [("payloadType", number 51)] in
  let mB := Obj [("payloadType", number 2120)] in
  let mA := Obj [("payloadType", number 2101); ("payload", Obj [])] in
  waitFor 2101 12000 (State [Message (Some hb); Message (Some mB); Message (Some mA); Elapsed] [] ∅ ∅)
  = (Ok mA, State [Elapsed] [] ∅ ∅).
Proof.
  intros hb mB mA.
  refine (proj2 (proj2 (waitFor_ordering 2101 2120 hb mB mA [Elapsed] 12000
            (State [Message (Some hb); Message (Some mB); Message (Some mA); Elapsed] [] ∅ ∅)
            _ _ _ _ _ _ _ _))); try reflexivity; lia.
Defined.



(** ** What the operations do to the trace and to the inbox

    A computation built from the monad's combinators preserves a preorder on
    states as soon as its primitive steps do. *)

Section Preservation.

Context (R : relation state) `{!PreOrder R}.

Lemma preserves_id {A} (m : M A) :
  (forall st, snd (m st) = st) -> preserves R m.
Proof. intros H st. rewrite H. reflexivity. Qed.

Lemma preserves_ret {A} (a : A) : preserves R (ret a).
Proof. now apply preserves_id. Qed.

Lemma preserves_throw {A} e : preserves R (@throw A e).
Proof. now apply preserves_id. Qed.

Lemma preserves_lift {A} (o : outcome A) : preserves R (lift o).
Proof. now apply preserves_id. Qed.

Lemma preserves_bind {A B} (m : M A) (k : A -> M B) :
  preserves R m -> (forall a, preserves R (k a)) -> preserves R (bind m k).
Proof.
  intros Hm Hk st. unfold bind. specialize (Hm st).
  destruct (m st) as [[a|e|] st1]; simpl in *; auto.
  etransitivity; [exact Hm | apply Hk].
Qed.

Lemma preserves_try_catch {A} (m : M A) (h : error -> M A) :
  preserves R m -> (forall e, preserves R (h e)) -> preserves R (try_catch m h).
Proof.
  intros Hm Hh st. unfold try_catch. specialize (Hm st).
  destruct (m st) as [[a|e|] st1]; simpl in *; auto.
  etransitivity; [exact Hm | apply Hh].
Qed.

Lemma preserves_for_each {A} (body : A -> M unit) l :
  (forall x, preserves R (body x)) -> preserves R (for_each body l).
Proof.
  intros Hb. induction l as [|x l IH]; simpl.
  - apply preserves_ret.
  - apply preserves_bind; auto.
Qed.

End Preservation.

#[local] Instance only_sends_preorder : PreOrder only_sends.
Proof.
  split.
  - intros st _. exists []. now rewrite app_nil_r.
  - intros st1 st2 st3 H12 H23 H1. destruct (H12 H1) as (l & El & Fl).
    destruct H23 as (l' & El' & Fl'); [now rewrite El, idle_armed_app|].
    exists (l ++ l'). rewrite El', El, app_assoc. split; [reflexivity|].
    now apply Forall_app.
Qed.

#[local] Instance only_consumes_preorder : PreOrder only_consumes.
Proof.
  split.
  - intros st ev H. exact H.
  - intros st1 st2 st3 H12 H23 ev H. auto.
Qed.

Lemma sends_sendMsg t payload : preserves only_sends (sendMsg t payload).
Proof. intros st _. exists [Send t payload]. split; [reflexivity | repeat constructor]. Qed.

Lemma sends_waitFor want t : preserves only_sends (waitFor want t).
Proof.
  intros st H. exists []. rewrite app_nil_r. split; [|constructor].
  now apply (waitFor_frame want t st).
Qed.

Lemma consumes_sendMsg t payload : preserves only_consumes (sendMsg t payload).
Proof. intros st ev H. exact H. Qed.

Lemma pump_suffix p evs : exists used, evs = used ++ snd (pump p evs).
Proof.
  revert p. induction evs as [|ev evs IH]; intros p; cbn [pump].
  - now exists [].
  - destruct (deliver p ev) as [p'|]; [|now exists [ev]].
    destruct (slot p'); [now exists [ev]|].
    destruct (IH p') as (used & E). exists (ev :: used). simpl. now rewrite <- E.
Qed.

Lemma pump_idle_incl p evs ev :
  In ev (snd (fst (pump_idle p evs))) -> In ev evs.
Proof.
  revert p. induction evs as [|e evs IH]; intros p; cbn [pump_idle]; [intros []|].
  assert (Hstep : In ev (snd (fst (match deliver p e with
                                    | Some p' => match slot p' with
                                                 | Some _ => (Some p', evs, false)
                                                 | None => pump_idle p' evs
                                                 end
                                    | None => (None, evs, false)
                                    end))) -> In ev (e :: evs)).
  { destruct (deliver p e) as [p'|]; [|now right].
    destruct (slot p'); [now right|]. intros H. right. exact (IH p' H). }
  destruct e; try exact Hstep. cbn [fst snd].
  destruct (pump_suffix p (muted evs)) as (used & E). intros H. right.
  assert (Hm : In ev (muted evs)) by (rewrite E; apply in_or_app; now right).
  unfold muted in Hm. now apply filter_In in Hm.
Qed.

Lemma consumes_waitFor want t : preserves only_consumes (waitFor want t).
Proof.
  intros st ev. unfold waitFor. destruct (idle_armed (trace st)).
  - pose proof (pump_idle_incl (fresh want) (inbox st) ev) as H.
    destruct (pump_idle _ _) as [[[p|] rest] fired]; exact H.
  - destruct (pump_suffix (fresh want) (inbox st)) as (used & E).
    destruct (pump _ _) as [[p|] rest]; cbn [fst snd set_inbox inbox] in *;
      intros H; rewrite E; apply in_or_app; now right.
Qed.

(** A step that leaves trace and inbox alone. *)
Lemma preserves_quiet {A} (R : relation state) (m : M A) :
  (forall st, trace (snd (m st)) = trace st /\ inbox (snd (m st)) = inbox st) ->
  (R = only_sends \/ R = only_consumes) -> preserves R m.
Proof.
  intros H [-> | ->] st; destruct (H st) as [Ht Hi].
  - intros _. exists []. now rewrite app_nil_r.
  - intros ev. now rewrite Hi.
Qed.

Create HintDb flow discriminated.
#[local] Hint Resolve preserves_ret preserves_throw preserves_lift
  sends_sendMsg sends_waitFor consumes_sendMsg consumes_waitFor : flow.

(** Structural descent through a monadic term. *)
Ltac flow :=
  repeat first
    [ progress intros
    | solve [auto with flow]
    | apply preserves_bind
    | apply preserves_try_catch
    | apply preserves_for_each
    | match goal with
      | |- preserves _ (if ?b then _ else _) => destruct b
      | |- preserves _ (match ?x with _ => _ end) => destruct x
      end ].

Ltac quiet :=
  apply preserves_quiet; [| solve [auto]]; intros;
  repeat match goal with |- context [match ?x with _ => _ end] => destruct x end;
  split; reflexivity.

Section Flow.

Context (R : relation state) `{!PreOrder R}.
Hypothesis HR : R = only_sends \/ R = only_consumes.

Lemma flow_sendMsg t payload : preserves R (sendMsg t payload).
Proof. destruct HR as [-> | ->]; auto with flow. Qed.

Lemma flow_waitFor want t : preserves R (waitFor want t).
Proof. destruct HR as [-> | ->]; auto with flow. Qed.

Hint Resolve flow_sendMsg flow_waitFor : flow.

Lemma flow_authenticate a : preserves R (authenticate a).
Proof. unfold authenticate. flow. Qed.

Lemma flow_deal_pages reqType resType a fuel :
  forall allDeals pageFrom pages,
    preserves R (deal_pages reqType resType a fuel allDeals pageFrom pages).
Proof.
  induction fuel as [|fuel IH]; intros; cbn [deal_pages]; cbv zeta; flow.
Qed.

Lemma flow_symbol_list a : preserves R (Relay.symbol_list a).
Proof. unfold Relay.symbol_list. flow. unfold Relay.symbol_entry. flow; quiet. Qed.

Lemma flow_detail_entry d : preserves R (Relay.detail_entry d).
Proof. unfold Relay.detail_entry. flow; quiet. Qed.

Hint Resolve flow_detail_entry flow_deal_pages : flow.

Lemma flow_detail_rounds a fuel :
  forall uniqueIds i, preserves R (Relay.detail_rounds a fuel uniqueIds i).
Proof.
  induction fuel as [|fuel IH]; intros; cbn [Relay.detail_rounds]; cbv zeta; flow.
Qed.

Hint Resolve flow_detail_rounds : flow.

Lemma flow_deals_and_details a : preserves R (Relay.deals_and_details a).
Proof.
  unfold Relay.deals_and_details, Relay.symbol_details, fetch_deals.
  apply preserves_bind; try exact _; [auto with flow|]. intros r. cbv zeta.
  apply preserves_bind; try exact _; [|intros; quiet]. flow.
Qed.

(** Authentication, the fresh tables and the symbol list. *)
Lemma flow_prelude a :
  preserves R (authenticate a ;;; Relay.new_tables ;;; Relay.symbol_list a).
Proof.
  apply preserves_bind; try exact _; [apply flow_authenticate|]. intros _.
  apply preserves_bind; try exact _; [quiet|]. intros _. apply flow_symbol_list.
Qed.

End Flow.

(** The trace only grows, in the three files. *)
#[local] Instance extends_preorder : PreOrder extends.
Proof.
  split.
  - intros st. exists []. now rewrite app_nil_r.
  - intros s1 s2 s3 (l & E) (l' & E'). exists (l ++ l'). now rewrite E', E, app_assoc.
Qed.

Lemma extends_sendMsg t payload : preserves extends (sendMsg t payload).
Proof. intros st. now exists [Send t payload]. Qed.

Lemma extends_waitFor want t : preserves extends (waitFor want t).
Proof.
  intros st. destruct (waitFor_trace want t st) as [E | (_ & E & _)].
  - exists []. now rewrite app_nil_r.
  - now exists [Terminate].
Qed.

#[local] Hint Resolve extends_preorder extends_sendMsg extends_waitFor : flow.

Lemma extends_authenticate a : preserves extends (authenticate a).
Proof. unfold authenticate. flow. Qed.

Lemma extends_deal_pages reqType resType a fuel :
  forall allDeals pageFrom pages,
    preserves extends (deal_pages reqType resType a fuel allDeals pageFrom pages).
Proof.
  induction fuel as [|fuel IH]; intros; cbn [deal_pages]; cbv zeta; flow.
Qed.

Lemma extends_tcp_symbol_list a : preserves extends (Tcp.symbol_list a).
Proof. unfold Tcp.symbol_list. flow. Qed.

Lemma extends_tcp_body a :
  preserves extends
    (authenticate a ;;;
     symbols <- Tcp.symbol_list a ;;
     r <- fetch_deals 2155 2156 a ;;
     ret {| Tcp.deals := fst r; Tcp.symbols := symbols; Tcp.pages := snd r;
            Tcp.total := length (fst r) |}).
Proof.
  apply preserves_bind; try exact _; [apply extends_authenticate|intros _].
  apply preserves_bind; try exact _; [apply extends_tcp_symbol_list|intros symbols].
  apply preserves_bind; try exact _; [apply extends_deal_pages|intros r].
  apply preserves_ret; exact _.
Qed.

(** Everything between the connection and the [finally]. *)
Lemma sends_only_body a :
  preserves only_sends
    (authenticate a ;;; Relay.new_tables ;;; Relay.symbol_list a ;;;
     Relay.deals_and_details a).
Proof.
  assert (H : only_sends = only_sends \/ only_sends = only_consumes) by now left.
  apply preserves_bind; try exact _; [apply (flow_authenticate _ H)|]. intros _.
  apply preserves_bind; try exact _; [quiet|]. intros _.
  apply preserves_bind; try exact _; [apply (flow_symbol_list _ H)|]. intros _.
  apply (flow_deals_and_details _ H).
Qed.

(** X20 (teardown in [index.js]).  Whenever [syncAccount] of [index.js] gets
    its connection (the socket opens before it fails or the connect timer
    elapses) and its promise settles, by a result or by any error, the
    actions of the call are: the connection, then requests only, then one
    [terminate] as the last action.  So the connection is closed exactly
    once, after everything else and before the promise settles, on every
    such path. *)
Theorem connection_closed_once (a : account) (st st' : state) (rest : list event)
    (out : outcome Relay.result) :
  await_open (inbox st) = (Opened, rest) ->
  Relay.syncAccount a st = (out, st') ->
  out <> Crash ->
  exists requests,
    trace st' = trace st ++ [Connect (host a)] ++ requests ++ [Terminate]
    /\ Forall is_Send requests.
Proof.
  intros Hopen Hrun Hout. unfold Relay.syncAccount in Hrun.
  unfold bind at 1 in Hrun. unfold connectWS in Hrun. cbv zeta in Hrun.
  change (inbox (log (Connect (host a)) st)) with (inbox st) in Hrun.
  rewrite Hopen in Hrun. unfold try_finally in Hrun.
  set (st1 := set_inbox rest (log (Connect (host a)) st)) in Hrun.
  destruct (sends_only_body a st1) as (l & El & Fl);
    [subst st1; apply idle_armed_Connect|].
  match type of Hrun with context [match ?b st1 with _ => _ end] =>
    change b with (authenticate a ;;; Relay.new_tables ;;; Relay.symbol_list a ;;;
                   Relay.deals_and_details a) in Hrun;
    destruct ((authenticate a ;;; Relay.new_tables ;;; Relay.symbol_list a ;;;
                   Relay.deals_and_details a) st1) as [[r|e|] st2] end;
    inversion Hrun; subst; try congruence;
    exists l; simpl in *; rewrite El; simpl; rewrite <- !app_assoc; auto.
Qed.

Lemma connection_closed_once_witness :
  exists requests,
    trace (snd (Relay.syncAccount sample_account (start [Open; Elapsed])))
    = [] ++ [Connect (host sample_account)] ++ requests ++ [Terminate]
    /\ Forall is_Send requests.
Proof.
  apply (connection_closed_once sample_account (start [Open; Elapsed]) _ [Elapsed]
           (fst (Relay.syncAccount sample_account (start [Open; Elapsed])))).
  - reflexivity.
  - apply surjective_pairing.
  - vm_compute. discriminate.
Defined.

(** A successful authentication has sent its two requests, and nothing has
    closed the socket meanwhile. *)
Lemma authenticate_Ok_trace a st st1 :
  authenticate a st = (Ok tt, st1) ->
  trace st1
  = trace st ++ [Send 2100 (Obj [("clientId", clientId a); ("clientSecret", clientSecret a)]);
                 Send 2102 (Obj [("ctidTraderAccountId", Num (ctidAccountId a));
                                 ("accessToken", accessToken a)])].
Proof.
  unfold authenticate. intros H.
  apply bind_Ok_inv in H as ([] & s1 & [= <-] & H).
  apply bind_Ok_inv in H as (m1 & s2 & H1 & H).
  apply bind_Ok_inv in H as ([] & s3 & [= <-] & H).
  apply bind_Ok_inv in H as (m2 & s4 & H2 & [= <-]).
  match type of H1 with waitFor _ _ ?s = _ =>
    destruct (waitFor_trace 2101 12000 s) as [E1 | (_ & _ & E1)];
    rewrite H1 in E1; cbn [fst snd] in E1; [|discriminate] end.
  match type of H2 with waitFor _ _ ?s = _ =>
    destruct (waitFor_trace 2103 12000 s) as [E2 | (_ & _ & E2)];
    rewrite H2 in E2; cbn [fst snd] in E2; [|discriminate] end.
  rewrite E2. cbn [log trace]. rewrite E1. cbn [log trace].
  now rewrite <- app_assoc.
Qed.

(** C9 at the input where the code departs from it.  [syncAccount] of
    [part_000] has its connection and is authenticated; the request for the
    symbol list goes out, and the socket stays idle for 12 s before the
    response comes, whatever else had come before.  The idle timer that
    [connectCtrader] set for the connection attempt is still armed: its
    listener destroys the socket in the middle of the sync.  The wait, which
    allows 15 s, can then only time out, also when the response is among
    what the remote side sends later, and the [finally] destroys the socket
    a second time: the trace of the call ends with two closings. *)
Theorem tcp_idle_timer_closes_twice (a : account) (st st1 : state)
    (pre later : list event) :
  (Tcp.connectCtrader (host a) ;;; authenticate a) st = (Ok tt, st1) ->
  inbox st1 = pre ++ Idle :: later ->
  Forall (unrelated 2120) pre ->
  exists st',
    Tcp.syncAccount a st = (Throw (WaitTimeout 2120), st')
    /\ trace st'
       = trace st ++ [Connect (host a); SetTimeout 12000;
                      Send 2100 (Obj [("clientId", clientId a);
                                      ("clientSecret", clientSecret a)]);
                      Send 2102 (Obj [("ctidTraderAccountId", Num (ctidAccountId a));
                                      ("accessToken", accessToken a)]);
                      Send 2119 (symbols_request a);
                      Terminate; Terminate].
Proof.
  intros Hpre Hin Hun.
  apply bind_Ok_inv in Hpre as ([] & st0 & Hconn & Hauth).
  assert (E0 : trace st0 = trace st ++ [Connect (host a); SetTimeout 12000]).
  { unfold Tcp.connectCtrader in Hconn. cbv zeta in Hconn.
    destruct (Tcp.await_connect _) as [[|m|] r]; try discriminate.
    injection Hconn as <-. cbn [set_inbox log trace]. now rewrite <- app_assoc. }
  pose proof (authenticate_Ok_trace a st0 st1 Hauth) as E1.
  set (st2 := log (Send 2119 (symbols_request a)) st1).
  assert (Harm : idle_armed (trace st2) = true).
  { subst st2. cbn [log trace]. rewrite E1, E0, <- !app_assoc.
    rewrite (app_assoc (trace st)), !idle_armed_app by (repeat constructor).
    unfold idle_armed. now rewrite fold_left_app. }
  destruct (pump_muted 2120 later) as (rest & Hrest).
  assert (Hwait : waitFor 2120 15000 st2
                  = (Throw (WaitTimeout 2120), set_inbox rest (log Terminate st2))).
  { unfold waitFor. rewrite Harm. change (inbox st2) with (inbox st1).
    rewrite Hin, (pump_idle_unrelated _ _ _ Hun). cbn [pump_idle]. now rewrite Hrest. }
  assert (Hsym : Tcp.symbol_list a st1
                 = (Throw (WaitTimeout 2120), set_inbox rest (log Terminate st2))).
  { unfold Tcp.symbol_list. unfold bind at 1. cbn [sendMsg]. fold st2.
    unfold bind at 1. now rewrite Hwait. }
  eexists. split.
  - unfold Tcp.syncAccount. rewrite (bind_Ok _ _ _ _ _ Hconn). unfold try_finally.
    rewrite (bind_Ok _ _ _ _ _ Hauth), (bind_Throw _ _ _ _ _ Hsym). reflexivity.
  - subst st2. cbn [terminate snd log set_inbox trace]. rewrite E1, E0.
    now rewrite <- !app_assoc.
Qed.

Lemma tcp_idle_timer_closes_twice_witness :
  exists st',
    Tcp.syncAccount sample_account
      (start [Open; Message (Some (response 2101 [])); Message (Some (response 2103 []));
              Idle; Message (Some (response 2120 []))])
    = (Throw (WaitTimeout 2120), st')
    /\ trace st'
       = [] ++ [Connect (host sample_account); SetTimeout 12000;
                Send 2100 (Obj [("clientId", clientId sample_account);
                                ("clientSecret", clientSecret sample_account)]);
                Send 2102 (Obj [("ctidTraderAccountId", Num (ctidAccountId sample_account));
                                ("accessToken", accessToken sample_account)]);
                Send 2119 (symbols_request sample_account);
                Terminate; Terminate].
Proof.
  apply (tcp_idle_timer_closes_twice sample_account
           (start [Open; Message (Some (response 2101 [])); Message (Some (response 2103 []));
                   Idle; Message (Some (response 2120 []))])
           (State [Idle; Message (Some (response 2120 []))]
              [Connect (host sample_account); SetTimeout 12000;
               Send 2100 (Obj [("clientId", Str "app"); ("clientSecret", Str "secret")]);
               Send 2102 (Obj [("ctidTraderAccountId", Num (Fin 42));
                               ("accessToken", Str "token")])] ∅ ∅)
           [] [Message (Some (response 2120 []))]).
  - reflexivity.
  - reflexivity.
  - constructor.
Defined.

(** ** The pagination loop *)

Section PaginationFacts.

Variables (reqType resType : Z) (a : account).

Let request (pageFrom : num) : action := Send reqType (deal_request a pageFrom).

(** One iteration on a response whose [deal] field is an array. *)
Lemma deal_pages_step fuel allDeals pageFrom pages st pre msg p rest :
  (pages < 40)%nat ->
  inbox st = pre ++ Message (Some msg) :: rest ->
  Forall (unrelated resType) pre ->
  page_of resType msg p ->
  let st1 := set_inbox rest (log (request pageFrom) st) in
  deal_pages reqType resType a (S fuel) allDeals pageFrom pages st =
    match p with
    | [] => (Ok (allDeals, pages), st1)
    | _ :: _ =>
        if (length p <? 500)%nat then (Ok (allDeals ++ p, S pages), st1)
        else
          match map_js timestamp p with
          | Ok ts =>
              if num_geb (num_succ (Math_max ts)) (toTimestamp a)
              then (Ok (allDeals ++ p, S pages), st1)
              else deal_pages reqType resType a fuel (allDeals ++ p)
                     (num_succ (Math_max ts)) (S pages) st1
          | Throw e => (Throw e, st1)
          | Crash => (Crash, st1)
          end
    end.
Proof.
  intros Hlt Hin Hpre [Hty Hdeal] st1. cbn [deal_pages].
  destruct (Nat.ltb_spec pages 40) as [_|]; [|lia].
  unfold bind at 1. cbn [sendMsg]. unfold bind at 1.
  rewrite (waitFor_resolves resType 20000 (log (Send reqType (deal_request a pageFrom)) st)
             pre msg rest Hin Hpre Hty).
  fold (request pageFrom). fold st1. cbv zeta.
  unfold deals_of. rewrite Hdeal. cbn [coalesce length_of iterate array_map Number ToNumber].
  destruct p as [|d p']; [reflexivity|].
  set (p := d :: p') in *.
  replace (negb (truthy (Some (Num (Fin (Z.of_nat (length p))))))) with false
    by (subst p; cbn [length truthy nonzero]; rewrite Nat2Z.inj_succ;
        destruct (Z.eqb_spec (Z.succ (Z.of_nat (length p'))) 0); [lia|reflexivity]).
  unfold bind at 1. cbn [lift].
  replace (num_ltb (Fin (Z.of_nat (length p))) (Fin 500)) with (length p <? 500)%nat
    by (cbn [num_ltb]; destruct (Nat.ltb_spec (length p) 500), (Z.ltb_spec (Z.of_nat (length p)) 500);
        try reflexivity; lia).
  destruct (length p <? 500)%nat; [reflexivity|].
  unfold bind at 1. cbn [lift].
  destruct (map_js timestamp p) as [ts|e|]; try reflexivity.
  destruct (num_geb _ _); reflexivity.
Qed.

(** The loop adds only deal-list requests to the trace, at most as many as
    iterations remain under the ceiling, whatever the fuel; behind them, the
    closing of the socket by its idle timer, if that was armed and fired. *)
Lemma deal_pages_requests fuel :
  forall allDeals pageFrom pages st,
  exists froms closed,
    trace (snd (deal_pages reqType resType a fuel allDeals pageFrom pages st))
    = trace st ++ map request froms ++ closed
    /\ (length froms <= 40 - pages)%nat
    /\ (closed = [] \/ (closed = [Terminate] /\ idle_armed (trace st) = true)).
Proof.
  induction fuel as [|fuel IH]; intros; cbn [deal_pages].
  { exists [], []. rewrite !app_nil_r. repeat split; [simpl; lia|now left]. }
  destruct (Nat.ltb_spec pages 40) as [Hlt|];
    [|exists [], []; rewrite !app_nil_r; repeat split; [simpl; lia|now left]].
  unfold bind at 1. cbn [sendMsg]. unfold bind at 1.
  set (st1 := log (Send reqType (deal_request a pageFrom)) st).
  assert (Harm : idle_armed (trace st1) = idle_armed (trace st)).
  { subst st1. cbn [log trace]. apply idle_armed_app. repeat constructor. }
  assert (Hone : forall st2, trace st2 = trace st1 ->
            exists froms closed,
              trace st2 = trace st ++ map request froms ++ closed
              /\ (length froms <= 40 - pages)%nat
              /\ (closed = [] \/ (closed = [Terminate] /\ idle_armed (trace st) = true))).
  { intros st2 E. exists [pageFrom], []. rewrite E.
    repeat split; [simpl; lia|now left]. }
  destruct (waitFor_trace resType 20000 st1) as [Htr | (Ha & Htr & Hout)].
  2: { exists [pageFrom], [Terminate]. destruct (waitFor resType 20000 st1) as [o st2].
       cbn [fst snd] in *. subst o. cbn [snd]. rewrite Htr. subst st1. cbn [log trace map].
       rewrite <- app_assoc. repeat split; [simpl; lia|]. right. split; [reflexivity|].
       now rewrite <- Harm. }
  destruct (waitFor resType 20000 st1) as [[r|e|] st2]; cbn [snd] in Htr; auto.
  cbv zeta. destruct (negb _); [now apply Hone|].
  unfold bind at 1. cbn [lift]. destruct (iterate _) as [items|e|]; try now apply Hone.
  destruct (num_ltb _ _); [now apply Hone|].
  unfold bind at 1. cbn [lift]. destruct (array_map _ _) as [ts|e|]; try now apply Hone.
  destruct (num_geb _ _); [now apply Hone|].
  destruct (IH (allDeals ++ items) (num_succ (Math_max ts)) (S pages) st2)
    as (froms & closed & E & L & C).
  exists (pageFrom :: froms), closed. rewrite E, Htr. subst st1. cbn [log trace map length].
  rewrite <- app_assoc. repeat split; [lia|].
  destruct C as [->|[-> C]]; [now left|right; split; [reflexivity|]].
  rewrite Htr in C. now rewrite <- Harm.
Qed.

End PaginationFacts.

(** The fuel of the embedding cuts nothing off: the [while] condition stops
    the loop before 40 units of fuel are spent. *)
Lemma deal_pages_fuel reqType resType a f1 :
  forall f2 allDeals pageFrom pages st,
    (40 - pages <= f1)%nat -> (40 - pages <= f2)%nat ->
    deal_pages reqType resType a f1 allDeals pageFrom pages st
    = deal_pages reqType resType a f2 allDeals pageFrom pages st.
Proof.
  induction f1 as [|f1 IH]; intros f2 allDeals pageFrom pages st H1 H2.
  - destruct f2 as [|f2]; [reflexivity|]. cbn [deal_pages].
    destruct (Nat.ltb_spec pages 40); [lia|reflexivity].
  - destruct f2 as [|f2]; cbn [deal_pages];
      destruct (Nat.ltb_spec pages 40); try lia; try reflexivity.
    apply bind_ext; intros _ st1. apply bind_ext; intros r st2. cbv zeta.
    destruct (negb _); [reflexivity|]. apply bind_ext; intros items st3.
    destruct (num_ltb _ _); [reflexivity|]. apply bind_ext; intros ts st4.
    destruct (num_geb _ _); [reflexivity|]. apply IH; lia.
Qed.

Lemma cursor_1001 : num_succ (Fin 1000) = Fin 1001.
Proof. vm_compute. reflexivity. Qed.



(** The loop reads the second response exactly when the cursor 1001 is
    short of [toTimestamp], or [toTimestamp] is no number: with
    [toTimestamp] 1001 it stops after the first page, and a second response
    stays in the inbox, unread. *)
Lemma range_reached_stops :
  let a := Account (Str "demo.ctraderapi.com") (Str "app") (Str "secret") (Str "token")
             (Fin 42) (Fin 0) (Fin 1001) in
  let m1 := response 2134 [("deal", Arr (sample_page 500 1000))] in
  let m2 := response 2134 [("deal", Arr (sample_page 120 1000))] in
  fetch_deals 2133 2134 a (start [Message (Some m1); Message (Some m2)])
  = (Ok (sample_page 500 1000, 1%nat),
     State [Message (Some m2)] [Send 2133 (deal_request a (Fin 0))] ∅ ∅).
Proof. intros a m1 m2. vm_compute. reflexivity. Qed.

(** On a run of full pages the loop reads one page per iteration until the
    ceiling of 40 pages is reached. *)
Lemma deal_pages_full reqType resType a ps :
  forall evs fuel allDeals pageFrom pages st rest,
    Forall2 (delivers_page resType) evs ps ->
    Forall (full_page a) ps ->
    inbox st = evs ++ rest ->
    (pages + length ps = 40)%nat ->
    (length ps <= fuel)%nat ->
    exists froms,
      deal_pages reqType resType a fuel allDeals pageFrom pages st
      = (Ok (allDeals ++ concat ps, 40%nat),
         State rest
           (trace st ++ map (fun f => Send reqType (deal_request a f)) froms)
           (symbols st) (lotSizes st))
      /\ length froms = length ps.
Proof.
  induction ps as [|p ps IH]; intros evs fuel allDeals pageFrom pages st rest Hev Hfull Hin Hpages Hfuel.
  - inversion Hev; subst. simpl in *. exists []. split; [|reflexivity].
    rewrite !app_nil_r. replace pages with 40%nat by lia.
    destruct st; destruct fuel; simpl in *; subst; reflexivity.
  - inversion Hev as [|ev p' evs' ps' (msg & -> & Hpage) Hev']; subst.
    inversion Hfull as [|? ? (Hlen & ts & Hts & Hgeb) Hfull']; subst.
    destruct fuel as [|fuel]; [simpl in Hfuel; lia|]. simpl in Hpages, Hfuel.
    rewrite (deal_pages_step reqType resType a fuel allDeals pageFrom pages st [] msg p
               (evs' ++ rest)); [|lia|exact Hin|constructor|exact Hpage].
    destruct p as [|d p0]; [discriminate|]. rewrite Hlen, Hts, Hgeb.
    change (500 <? 500)%nat with false. cbv iota.
    destruct (IH evs' fuel (allDeals ++ d :: p0) (num_succ (Math_max ts)) (S pages)
                (set_inbox (evs' ++ rest) (log (Send reqType (deal_request a pageFrom)) st))
                rest Hev' Hfull' eq_refl) as (froms & E & L); [lia|lia|].
    exists (pageFrom :: froms). rewrite E. split; [|simpl; lia].
    simpl. rewrite <- !app_assoc. reflexivity.
Qed.

(** C2 (pagination ceiling).  The ceiling is the loop's own condition
    [pages < 40]: with any bound of 40 or more on its iterations the loop of
    the embedding is the same function, so no bound of the embedding cuts it
    short.  Whatever the responses and whatever [toTimestamp], the loop
    returns after at most 40 iterations: it adds to the trace one deal-list
    request per iteration, at most 40 of them (and behind them, in
    [part_000], the closing of the socket if its idle timer fires).  And when
    page after page comes back with exactly 500 deals and the cursor never
    reaches [toTimestamp], the ceiling is what stops it: after 40 pages the
    loop returns their deals with [pages] 40, having sent 40 requests, and
    reads no further, whatever is still to come. *)
Theorem pagination_ceiling (reqType resType : Z) (a : account) (st : state) (fuel : nat) :
  (40 <= fuel)%nat ->
  let loop := deal_pages reqType resType a fuel [] (fromTimestamp a) 0 in
  (forall s, loop s = fetch_deals reqType resType a s)
  /\ (exists froms closed,
        trace (snd (loop st))
        = trace st ++ map (fun f => Send reqType (deal_request a f)) froms ++ closed
        /\ (length froms <= 40)%nat
        /\ (closed = [] \/ closed = [Terminate]))
  /\ (forall evs ps rest,
        inbox st = evs ++ rest ->
        Forall2 (delivers_page resType) evs ps ->
        Forall (full_page a) ps ->
        length ps = 40%nat ->
        exists froms,
          loop st
          = (Ok (concat ps, 40%nat),
             State rest
               (trace st ++ map (fun f => Send reqType (deal_request a f)) froms)
               (symbols st) (lotSizes st))
          /\ length froms = 40%nat).
Proof.
  intros Hfuel loop. split; [|split].
  - intros s. apply deal_pages_fuel; simpl; lia.
  - destruct (deal_pages_requests reqType resType a fuel [] (fromTimestamp a) 0 st)
      as (froms & closed & E & L & C).
    exists froms, closed. repeat split; [exact E|simpl in L; lia|].
    destruct C as [->|[-> _]]; auto.
  - intros evs ps rest Hin Hev Hfull Hlen.
    destruct (deal_pages_full reqType resType a ps evs fuel [] (fromTimestamp a) 0 st rest
                Hev Hfull Hin) as (froms & E & L); [simpl; lia|lia|].
    exists froms. split; [exact E|lia].
Qed.

Lemma pagination_ceiling_witness :
  let a := Account (Str "demo.ctraderapi.com") (Str "app") (Str "secret") (Str "token")
             (Fin 42) (Fin 0) NaN in
  let ev := Message (Some (response 2134 [("deal", Arr (sample_page 500 1000))])) in
  exists froms,
    deal_pages 2133 2134 a 1000 [] (fromTimestamp a) 0 (start (replicate 40 ev ++ [ev; ev]))
    = (Ok (concat (replicate 40 (sample_page 500 1000)), 40%nat),
       State [ev; ev] ([] ++ map (fun f => Send 2133 (deal_request a f)) froms) ∅ ∅)
    /\ length froms = 40%nat.
Proof.
  intros a ev.
  refine (proj2 (proj2 (pagination_ceiling 2133 2134 a (start (replicate 40 ev ++ [ev; ev]))
                          1000 _))
            (replicate 40 ev) (replicate 40 (sample_page 500 1000)) [ev; ev] _ _ _ _).
  - lia.
  - reflexivity.
  - apply Forall2_replicate. exists (response 2134 [("deal", Arr (sample_page 500 1000))]).
    split; [reflexivity|]. split; reflexivity.
  - apply Forall_replicate. split; [reflexivity|].
    exists (replicate 500 (Fin 1000)). split; vm_compute; reflexivity.
  - reflexivity.
Defined.

(** ** The result of a sync *)

Lemma iterate_nonempty deals items :
  truthy (length_of deals) = true -> iterate deals = Ok items -> items <> [].
Proof.
  destruct deals as [[| | |s|l|]|]; try discriminate; cbn [iterate length_of].
  - intros H [= <-]. now destruct s.
  - intros H [= <-]. now destruct l.
Qed.

Lemma appended_earlier resType evs evs' p :
  (forall ev, In ev evs -> In ev evs') ->
  appended resType evs p -> appended resType evs' p.
Proof.
  intros Hincl (Hne & msg & Hin & H). split; [assumption|]. exists msg.
  split; [now apply Hincl | assumption].
Qed.

(** The loop returns the deals it started with followed by the pages it
    appended, and [pages] grows by their number. *)
Lemma deal_pages_pages reqType resType a fuel :
  forall allDeals pageFrom pages st r st',
    deal_pages reqType resType a fuel allDeals pageFrom pages st = (Ok r, st') ->
    exists ps,
      fst r = allDeals ++ concat ps
      /\ snd r = (pages + length ps)%nat
      /\ Forall (appended resType (inbox st)) ps.
Proof.
  induction fuel as [|fuel IH]; intros allDeals pageFrom pages st r st'; cbn [deal_pages].
  { intros [= <- _]. exists []. cbn. rewrite app_nil_r. auto. }
  assert (Hstop : forall s : state, (Ok (allDeals, pages), s) = (Ok r, st') ->
            exists ps, fst r = allDeals ++ concat ps /\ snd r = (pages + length ps)%nat
                       /\ Forall (appended resType (inbox st)) ps).
  { intros s [= <- _]. exists []. cbn. rewrite app_nil_r. auto. }
  destruct (pages <? 40)%nat; [|apply Hstop].
  intros H. apply bind_Ok_inv in H as ([] & st1 & [= <-] & H).
  apply bind_Ok_inv in H as (msg & st2 & Hwait & H). revert H. cbv zeta.
  destruct (waitFor_Ok_inv _ _ _ _ _ Hwait) as [Hin Hty]. cbn [log inbox] in Hin.
  pose proof (consumes_waitFor resType 20000 (log (Send reqType (deal_request a pageFrom)) st))
    as Hused. rewrite Hwait in Hused. unfold only_consumes in Hused.
  cbn [snd log inbox] in Hused.
  destruct (truthy (length_of (deals_of msg))) eqn:Htruthy; cbn [negb]; [|apply Hstop].
  intros H. apply bind_Ok_inv in H as (items & s & [= Hit <-] & H). revert H.
  assert (Happ : appended resType (inbox st) items).
  { split; [eapply iterate_nonempty; eauto|]. exists msg. auto. }
  assert (Hlast : forall s : state, (Ok (allDeals ++ items, S pages), s) = (Ok r, st') ->
            exists ps, fst r = allDeals ++ concat ps /\ snd r = (pages + length ps)%nat
                       /\ Forall (appended resType (inbox st)) ps).
  { intros s [= <- _]. exists [items]. cbn. rewrite app_nil_r.
    repeat apply conj; [reflexivity | lia | now constructor]. }
  destruct (num_ltb _ _); [apply Hlast|].
  intros H. apply bind_Ok_inv in H as (ts & s & [= Hts <-] & H). revert H.
  destruct (num_geb _ _); [apply Hlast|].
  intros H. apply IH in H as (ps & E1 & E2 & F).
  exists (items :: ps). cbn [concat length]. rewrite E1, E2, <- app_assoc.
  repeat apply conj; [reflexivity | lia |].
  constructor; [assumption|].
  eapply Forall_impl; [exact F|]. intros p. now apply appended_earlier.
Qed.

Lemma deal_pages_empty reqType resType a fuel allDeals pageFrom pages st pre msg rest :
  (pages < 40)%nat ->
  inbox st = pre ++ Message (Some msg) :: rest ->
  Forall (unrelated resType) pre ->
  payloadType_of msg = Some (Fin resType) ->
  empty_page msg ->
  deal_pages reqType resType a (S fuel) allDeals pageFrom pages st
  = (Ok (allDeals, pages),
     set_inbox rest (log (Send reqType (deal_request a pageFrom)) st)).
Proof.
  intros Hlt Hin Hpre Hty Hempty. cbn [deal_pages].
  destruct (Nat.ltb_spec pages 40) as [_|]; [|lia].
  unfold bind at 1. cbn [sendMsg]. unfold bind at 1.
  rewrite (waitFor_resolves resType 20000 (log (Send reqType (deal_request a pageFrom)) st)
             pre msg rest Hin Hpre Hty).
  cbv zeta. unfold empty_page in Hempty. now rewrite Hempty.
Qed.

Lemma consumes_connectWS h : preserves only_consumes (connectWS h).
Proof.
  intros st ev. unfold connectWS. cbv zeta. change (inbox (log (Connect h) st)) with (inbox st).
  assert (H : In ev (snd (await_open (inbox st))) -> In ev (inbox st)).
  { induction (inbox st) as [|e evs IH]; [intros []|].
    destruct e; cbn [await_open snd]; intros H; right; auto. }
  destruct (await_open (inbox st)) as [[|m|] rest]; exact H.
Qed.

Lemma consumes_connectCtrader h : preserves only_consumes (Tcp.connectCtrader h).
Proof.
  intros st ev. unfold Tcp.connectCtrader. cbv zeta.
  change (inbox (log (SetTimeout 12000) (log (Connect h) st))) with (inbox st).
  assert (H : In ev (snd (Tcp.await_connect (inbox st))) -> In ev (inbox st)).
  { induction (inbox st) as [|e evs IH]; [intros []|].
    destruct e; cbn [Tcp.await_connect snd]; intros H; right; auto. }
  destruct (Tcp.await_connect (inbox st)) as [[|m|] rest]; exact H.
Qed.

Lemma consumes_symbol_list a : preserves only_consumes (Tcp.symbol_list a).
Proof.
  unfold Tcp.symbol_list.
  apply preserves_bind; try exact _; [apply consumes_sendMsg|intros _].
  apply preserves_bind; try exact _; [apply consumes_waitFor|intros symRes].
  apply preserves_bind; try exact _; [apply preserves_lift; exact _|intros entries].
  apply preserves_lift; exact _.
Qed.

(** What the loop returns counts the pages of the inbox it started from. *)
Lemma fetch_deals_counted reqType resType a st0 st r st' :
  only_consumes st0 st ->
  fetch_deals reqType resType a st = (Ok r, st') ->
  counted resType (inbox st0) (fst r) (snd r) (length (fst r)).
Proof.
  intros Hused H. split; [reflexivity|].
  destruct (deal_pages_pages _ _ _ _ _ _ _ _ _ _ H) as (ps & E1 & E2 & F).
  exists ps. repeat apply conj; [exact E1 | exact E2 |].
  eapply Forall_impl; [exact F|]. intros p. now apply appended_earlier.
Qed.



(** ** The service boundary *)

Lemma is_missing_spec body k :
  is_missing body k = true
  <-> prop body k = None \/ prop body k = Some Null \/ prop body k = Some (Str "").
Proof.
  unfold is_missing. destruct (prop body k) as [[| | |[|c s]| |]|];
    split; intros H; try reflexivity; try discriminate; auto;
    destruct H as [H|[H|H]]; discriminate.
Qed.

(** A request with a body and a missing field is refused on the spot; with
    no field missing it goes to [syncAccount], whose result or error becomes
    the reply. *)
Lemma route_spec {R} prefix (sync : account -> M R) body st :
  body <> Null ->
  (missing body <> [] ->
     route prefix sync (Some body) st
     = (Ok (Refused (prefix +:+ String.concat ", " (missing body))), st))
  /\ (missing body = [] ->
        route prefix sync (Some body) st
        = match sync (account_of body) st with
          | (Ok r, st') => (Ok (Accepted r), st')
          | (Throw e, st') => (Ok (Failure e), st')
          | (Crash, st') => (Crash, st')
          end).
Proof.
  intros Hbody.
  assert (E : route prefix sync (Some body) st
              = match missing body with
                | [] => try_catch (result <- sync (account_of body) ;; ret (Accepted result))
                          (fun e => ret (Failure e)) st
                | _ :: _ => (Ok (Refused (prefix +:+ String.concat ", " (missing body))), st)
                end).
  { unfold route. destruct body; try contradiction; destruct (missing _); reflexivity. }
  rewrite E. destruct (missing body) as [|k ks]; split; intros H; try congruence.
  unfold try_catch, bind. destruct (sync (account_of body) st) as [[r|e|] st']; reflexivity.
Qed.

(** [syncAccount] starts by attempting the connection. *)
Lemma syncAccount_connects a st :
  exists later, trace (snd (Relay.syncAccount a st)) = trace st ++ Connect (host a) :: later.
Proof.
  unfold Relay.syncAccount, bind at 1, connectWS. cbv zeta.
  change (inbox (log (Connect (host a)) st)) with (inbox st).
  destruct (await_open (inbox st)) as [[|m|] rest].
  - unfold try_finally. set (st1 := set_inbox rest (log (Connect (host a)) st)).
    destruct (sends_only_body a st1) as (l & El & _);
      [subst st1; apply idle_armed_Connect|].
    match goal with |- context [match ?b st1 with _ => _ end] =>
      change b with (authenticate a ;;; Relay.new_tables ;;; Relay.symbol_list a ;;;
                     Relay.deals_and_details a);
      destruct ((authenticate a ;;; Relay.new_tables ;;; Relay.symbol_list a ;;;
                 Relay.deals_and_details a) st1) as [[r|e|] st2] end;
      cbn [snd terminate log trace] in *; rewrite El; subst st1; cbn;
      rewrite <- ?app_assoc; eauto.
  - exists []. reflexivity.
  - exists [Terminate]. cbn. now rewrite <- app_assoc.
Qed.

(** The same for [part_000]. *)
Lemma tcp_syncAccount_connects a st :
  exists later, trace (snd (Tcp.syncAccount a st)) = trace st ++ Connect (host a) :: later.
Proof.
  unfold Tcp.syncAccount, bind at 1, Tcp.connectCtrader. cbv zeta.
  change (inbox (log (SetTimeout 12000) (log (Connect (host a)) st))) with (inbox st).
  destruct (Tcp.await_connect (inbox st)) as [[|m|] rest].
  - unfold try_finally.
    set (st1 := set_inbox rest (log (SetTimeout 12000) (log (Connect (host a)) st))).
    destruct (extends_tcp_body a st1) as (l & El).
    match goal with |- context [match ?b st1 with _ => _ end] =>
      destruct (b st1) as [[r|e|] st2] end;
      cbn [snd terminate log trace] in *; rewrite El; subst st1; cbn;
      rewrite <- ?app_assoc; eauto.
  - eexists. cbn. rewrite <- app_assoc. reflexivity.
  - eexists. cbn. rewrite <- !app_assoc. reflexivity.
Qed.



(** C8 at the input where the code departs from it.  The request is for
    [/sync], carries the configured secret in its header, and has no parsed
    body: [req.body] is [undefined], so that none of the seven fields is
    there.  The middleware, which reads [req.body?.secret], lets the request pass; the
    route destructures [req.body] before it looks for missing fields and
    throws a [TypeError], outside its [try].  The error leaves the route
    uncaught, in [index.js] as in [part_000]: the route replies neither with
    the list of the missing fields nor with any other failure result, and
    the state is untouched. *)
Theorem sync_without_body (RELAY_SECRET : string) (st : state) :
  RELAY_SECRET <> "" ->
  let req := {| path := "/sync"; secret_header := Some RELAY_SECRET; body := None |} in
  middleware RELAY_SECRET req = Next
  /\ Relay.post_sync (body req) st = (Throw TypeError, st)
  /\ Tcp.post_sync (body req) st = (Throw TypeError, st).
Proof.
  intros Hsecret req. split; [|repeat split].
  unfold middleware, secret_of, differs. cbn [path secret_header req].
  destruct (String.eqb_spec RELAY_SECRET ""); [contradiction|].
  now rewrite String.eqb_refl.
Qed.

Lemma sync_without_body_witness :
  middleware "s3cret" {| path := "/sync"; secret_header := Some "s3cret"; body := None |} = Next
  /\ Relay.post_sync None (start [Open]) = (Throw TypeError, start [Open])
  /\ Tcp.post_sync None (start [Open]) = (Throw TypeError, start [Open]).
Proof.
  destruct (sync_without_body "s3cret" (start [Open])) as (H1 & H2 & H3).
  - discriminate.
  - exact (conj H1 (conj H2 H3)).
Defined.

(** ** The symbol list and the symbol details *)

(** The rounds need no more fuel than there are identifiers. *)
Lemma detail_rounds_fuel a f1 :
  forall f2 uniqueIds i st,
    (length uniqueIds - i <= f1)%nat -> (length uniqueIds - i <= f2)%nat ->
    Relay.detail_rounds a f1 uniqueIds i st = Relay.detail_rounds a f2 uniqueIds i st.
Proof.
  induction f1 as [|f1 IH]; intros f2 uniqueIds i st H1 H2.
  - destruct f2 as [|f2]; [reflexivity|]. cbn [Relay.detail_rounds].
    destruct (Nat.ltb_spec i (length uniqueIds)); [lia|reflexivity].
  - destruct f2 as [|f2]; cbn [Relay.detail_rounds];
      destruct (Nat.ltb_spec i (length uniqueIds)); try lia; try reflexivity.
    cbv zeta. apply bind_ext; intros _ st1. apply bind_ext; intros r st2.
    apply bind_ext; intros entries st3. apply bind_ext; intros _ st4. apply IH; lia.
Qed.

(** Whatever goes wrong in the symbol list of [index.js], a failed wait or a
    [TypeError] on the entries, the step itself does not throw. *)
Lemma symbol_list_catches a st :
  fst (Relay.symbol_list a st) = Ok tt \/ fst (Relay.symbol_list a st) = Crash.
Proof.
  unfold Relay.symbol_list, try_catch.
  destruct (bind _ _ st) as [[[]|e|] st']; cbn; auto.
Qed.

(** X18 (the symbol list of [index.js] is not fatal).  When the wait for the
    symbol list fails, by its timeout or by an error message of the remote
    side, the [catch] swallows the error: the step returns with both tables
    empty, and [syncAccount] goes on with the deal pagination from there.  Its
    outcome is that of the remaining steps followed by the closing of the
    connection; in particular it returns their result whenever they return
    one. *)
Theorem symbol_list_failure_not_fatal (a : account) (st st1 st2 : state) (e : error) :
  (connectWS (host a) ;;; authenticate a ;;; Relay.new_tables) st = (Ok tt, st1) ->
  (sendMsg 2119 (symbols_request a) ;;; waitFor 2120 20000) st1 = (Throw e, st2) ->
  Relay.symbol_list a st1 = (Ok tt, st2)
  /\ symbols st2 = ∅
  /\ lotSizes st2 = ∅
  /\ Relay.syncAccount a st = try_finally (Relay.deals_and_details a) terminate st2
  /\ (forall r st3,
        Relay.deals_and_details a st2 = (Ok r, st3) ->
        Relay.syncAccount a st = (Ok r, log Terminate st3)).
Proof.
  intros Hpre Hfail.
  apply bind_Ok_inv in Hpre as ([] & s0 & Hconn & Hpre).
  apply bind_Ok_inv in Hpre as ([] & s1 & Hauth & Hnew).
  assert (Hsym : Relay.symbol_list a st1 = (Ok tt, st2)).
  { unfold Relay.symbol_list, try_catch.
    unfold bind at 1. unfold bind at 1 in Hfail.
    destruct (sendMsg 2119 (symbols_request a) st1) as [[[]|e0|] s] eqn:Hsend;
      try discriminate.
    unfold bind at 1. rewrite Hfail. reflexivity. }
  assert (Htables : symbols st2 = ∅ /\ lotSizes st2 = ∅).
  { injection Hnew as <-. unfold bind, sendMsg in Hfail.
    destruct (waitFor_tables 2120 20000
                (log (Send 2119 (symbols_request a)) (set_lotSizes ∅ (set_symbols ∅ s1))))
      as (Hs & Hl).
    destruct (waitFor 2120 20000 _) as [[m|e'|] s]; try discriminate.
    injection Hfail as _ <-. auto. }
  assert (Hsync : Relay.syncAccount a st
                  = try_finally (Relay.deals_and_details a) terminate st2).
  { unfold Relay.syncAccount. rewrite (bind_Ok _ _ _ _ _ Hconn). unfold try_finally.
    now rewrite (bind_Ok _ _ _ _ _ Hauth), (bind_Ok _ _ _ _ _ Hnew), (bind_Ok _ _ _ _ _ Hsym). }
  repeat apply conj; try tauto.
  intros r st3 Hrest. rewrite Hsync. unfold try_finally. now rewrite Hrest.
Qed.

Lemma symbol_list_failure_not_fatal_witness :
  Relay.syncAccount sample_account
    (start [Open; Message (Some (response 2101 [])); Message (Some (response 2103 []));
            Elapsed;
            Message (Some (response 2134 [("deal", Arr [sample_deal 10 0])]))])
  = (Ok {| Relay.deals := [sample_deal 10 0]; Relay.names := ∅; Relay.lots := ∅;
           Relay.pages := 1; Relay.total := 1 |},
     log Terminate
       (State []
          [Connect (host sample_account);
           Send 2100 (Obj [("clientId", Str "app"); ("clientSecret", Str "secret")]);
           Send 2102 (Obj [("ctidTraderAccountId", Num (Fin 42)); ("accessToken", Str "token")]);
           Send 2119 (symbols_request sample_account);
           Send 2133 (deal_request sample_account (Fin 0))] ∅ ∅)).
Proof.
  refine (proj2 (proj2 (proj2 (proj2
            (symbol_list_failure_not_fatal sample_account
               (start [Open; Message (Some (response 2101 []));
                       Message (Some (response 2103 [])); Elapsed;
                       Message (Some (response 2134 [("deal", Arr [sample_deal 10 0])]))])
               (State [Elapsed;
                       Message (Some (response 2134 [("deal", Arr [sample_deal 10 0])]))]
                  [Connect (host sample_account);
                   Send 2100 (Obj [("clientId", Str "app"); ("clientSecret", Str "secret")]);
                   Send 2102 (Obj [("ctidTraderAccountId", Num (Fin 42));
                                   ("accessToken", Str "token")])] ∅ ∅)
               (State [Message (Some (response 2134 [("deal", Arr [sample_deal 10 0])]))]
                  [Connect (host sample_account);
                   Send 2100 (Obj [("clientId", Str "app"); ("clientSecret", Str "secret")]);
                   Send 2102 (Obj [("ctidTraderAccountId", Num (Fin 42));
                                   ("accessToken", Str "token")]);
                   Send 2119 (symbols_request sample_account)] ∅ ∅)
               (WaitTimeout 2120) _ _)))) _ _ _); reflexivity.
Defined.

(** C6 at the input where the code departs from it.  In [part_000] nothing
    catches a failure of the symbol list: when the wait for it fails, by its
    timeout or by an error message of the remote side, [syncAccount] fails
    with that error after closing the connection.  No deal is asked for,
    whatever deal pages the remote side would still deliver: the trace ends
    with the symbol-list request, the closing of the socket by its idle timer
    if that fired, and the closing in the [finally]. *)
Theorem tcp_symbol_list_failure_fatal (a : account) (st st1 st2 : state) (e : error) :
  (Tcp.connectCtrader (host a) ;;; authenticate a) st = (Ok tt, st1) ->
  (sendMsg 2119 (symbols_request a) ;;; waitFor 2120 15000) st1 = (Throw e, st2) ->
  Tcp.symbol_list a st1 = (Throw e, st2)
  /\ Tcp.syncAccount a st = (Throw e, log Terminate st2)
  /\ (trace st2 = trace st1 ++ [Send 2119 (symbols_request a)]
      \/ trace st2 = trace st1 ++ [Send 2119 (symbols_request a); Terminate]).
Proof.
  intros Hpre Hfail.
  apply bind_Ok_inv in Hpre as ([] & s0 & Hconn & Hauth).
  assert (Hsym : Tcp.symbol_list a st1 = (Throw e, st2)).
  { unfold Tcp.symbol_list. unfold bind at 1. unfold bind at 1 in Hfail.
    destruct (sendMsg 2119 (symbols_request a) st1) as [[[]|e0|] s] eqn:Hsend;
      try discriminate.
    unfold bind at 1. now rewrite Hfail. }
  split; [exact Hsym|]. split.
  - unfold Tcp.syncAccount. rewrite (bind_Ok _ _ _ _ _ Hconn). unfold try_finally.
    now rewrite (bind_Ok _ _ _ _ _ Hauth), (bind_Throw _ _ _ _ _ Hsym).
  - unfold bind, sendMsg in Hfail.
    destruct (waitFor_trace 2120 15000 (log (Send 2119 (symbols_request a)) st1))
      as [E | (_ & E & _)];
      destruct (waitFor 2120 15000 _) as [[m|e'|] s]; try discriminate;
      injection Hfail as _ <-; cbn [snd log trace] in E; rewrite E;
      rewrite <- ?app_assoc; auto.
Qed.

Lemma tcp_symbol_list_failure_fatal_witness :
  Tcp.syncAccount sample_account
    (start [Open; Message (Some (response 2101 [])); Message (Some (response 2103 []));
            Elapsed;
            Message (Some (response 2156 [("deal", Arr [sample_deal 10 0])]))])
  = (Throw (WaitTimeout 2120),
     log Terminate
       (State [Message (Some (response 2156 [("deal", Arr [sample_deal 10 0])]))]
          [Connect (host sample_account); SetTimeout 12000;
           Send 2100 (Obj [("clientId", Str "app"); ("clientSecret", Str "secret")]);
           Send 2102 (Obj [("ctidTraderAccountId", Num (Fin 42)); ("accessToken", Str "token")]);
           Send 2119 (symbols_request sample_account)] ∅ ∅)).
Proof.
  refine (proj1 (proj2
            (tcp_symbol_list_failure_fatal sample_account
               (start [Open; Message (Some (response 2101 []));
                       Message (Some (response 2103 [])); Elapsed;
                       Message (Some (response 2156 [("deal", Arr [sample_deal 10 0])]))])
               (State [Elapsed;
                       Message (Some (response 2156 [("deal", Arr [sample_deal 10 0])]))]
                  [Connect (host sample_account); SetTimeout 12000;
                   Send 2100 (Obj [("clientId", Str "app"); ("clientSecret", Str "secret")]);
                   Send 2102 (Obj [("ctidTraderAccountId", Num (Fin 42));
                                   ("accessToken", Str "token")])] ∅ ∅)
               (State [Message (Some (response 2156 [("deal", Arr [sample_deal 10 0])]))]
                  [Connect (host sample_account); SetTimeout 12000;
                   Send 2100 (Obj [("clientId", Str "app"); ("clientSecret", Str "secret")]);
                   Send 2102 (Obj [("ctidTraderAccountId", Num (Fin 42));
                                   ("accessToken", Str "token")]);
                   Send 2119 (symbols_request sample_account)] ∅ ∅)
               (WaitTimeout 2120) _ _))); reflexivity.
Defined.



(** ** The frame reader of [part_000] *)

Section FrameReaderFacts.

Variable JSON_parse : list Byte.byte -> option value.

(** Fuel beyond the length of the buffer changes nothing. *)
Lemma drain_fuel f1 :
  forall f2 buf,
    (length buf <= f1)%nat -> (length buf <= f2)%nat ->
    Tcp.drain JSON_parse f1 buf = Tcp.drain JSON_parse f2 buf.
Proof.
  induction f1 as [|f1 IH]; intros f2 buf H1 H2.
  - destruct buf; [|simpl in H1; lia]. now destruct f2.
  - destruct f2 as [|f2].
    + destruct buf; [|simpl in H2; lia]. reflexivity.
    + cbn [Tcp.drain]. destruct (4 <=? length buf)%nat; [|reflexivity].
      destruct (_ || _); [reflexivity|].
      destruct (Nat.ltb_spec (length buf) (4 + Z.to_nat (Tcp.readUInt32BE buf)));
        [reflexivity|].
      destruct (JSON_parse _); [|reflexivity].
      rewrite (IH f2); [reflexivity|rewrite length_drop; lia..].
Qed.

(** A complete frame whose body parses is handed over and removed, and the
    loop goes on with what follows it. *)
Lemma on_data_frame buf chunk msg :
  let data := buf ++ chunk in
  let len := Tcp.readUInt32BE data in
  (4 <= length data)%nat ->
  0 < len <= 2000000 ->
  (4 + Z.to_nat len <= length data)%nat ->
  JSON_parse (take (Z.to_nat len) (drop 4 data)) = Some msg ->
  Tcp.on_data JSON_parse buf chunk
  = (fst (Tcp.on_data JSON_parse (drop (4 + Z.to_nat len) data) []),
     msg :: snd (Tcp.on_data JSON_parse (drop (4 + Z.to_nat len) data) [])).
Proof.
  intros data len H4 Hlen Hfull Hparse. unfold Tcp.on_data. fold data.
  destruct (length data) as [|n] eqn:En; [lia|]. cbn [Tcp.drain]. rewrite En.
  destruct (Nat.leb_spec 4 (S n)); [|lia]. fold len.
  destruct (Z.leb_spec len 0); [lia|]. destruct (Z.ltb_spec 2000000 len); [lia|].
  cbn [orb]. destruct (Nat.ltb_spec (S n) (4 + Z.to_nat len)); [lia|].
  rewrite Hparse. rewrite app_nil_r.
  rewrite (drain_fuel n (length (drop (4 + Z.to_nat len) data)));
    [reflexivity|rewrite length_drop; lia|lia].
Qed.

(** C5 at the input where the code departs from it.  The buffer starts
    with a complete frame (at least [4 + L] bytes, [L] the length read at
    its head, positive and at most 2,000,000) whose body [JSON.parse]
    rejects.  The listener hands over nothing and leaves the buffer as it
    is, frame included, and so it does on every later chunk: no message
    behind that frame is ever decoded. *)
Theorem frame_reader_stalls (buf chunk : list Byte.byte) :
  let data := buf ++ chunk in
  let len := Tcp.readUInt32BE data in
  (4 <= length data)%nat ->
  0 < len <= 2000000 ->
  (4 + Z.to_nat len <= length data)%nat ->
  JSON_parse (take (Z.to_nat len) (drop 4 data)) = None ->
  Tcp.on_data JSON_parse buf chunk = (data, [])
  /\ forall more, Tcp.on_data JSON_parse data more = (data ++ more, []).
Proof.
  intros data len H4 Hlen Hfull Hparse.
  assert (Hstall : forall more,
            Tcp.drain JSON_parse (length (data ++ more)) (data ++ more) = (data ++ more, [])).
  { intros more.
    assert (Hhead : Tcp.readUInt32BE (data ++ more) = len).
    { subst len. destruct data as [|b0 [|b1 [|b2 [|b3 tl]]]]; simpl in H4; try lia.
      reflexivity. }
    destruct (length (data ++ more)) as [|n] eqn:En;
      [rewrite length_app in En; lia|].
    cbn [Tcp.drain]. rewrite En, Hhead. rewrite length_app in En.
    destruct (Nat.leb_spec 4 (S n)); [|lia].
    destruct (Z.leb_spec len 0); [lia|]. destruct (Z.ltb_spec 2000000 len); [lia|].
    cbn [orb]. destruct (Nat.ltb_spec (S n) (4 + Z.to_nat len)); [lia|].
    rewrite drop_app_le by lia. rewrite take_app_le by (rewrite length_drop; lia).
    now rewrite Hparse. }
  split.
  - unfold Tcp.on_data. fold data. specialize (Hstall []).
    now rewrite app_nil_r in Hstall.
  - intros more. apply Hstall.
Qed.

End FrameReaderFacts.

Lemma frame_reader_stalls_witness :
  let bad := [x00; x00; x00; x01; x78]%byte in
  let good := [x00; x00; x00; x02; x7b; x7d]%byte in
  Tcp.on_data only_empty_object [] good = ([], [Obj []])
  /\ Tcp.on_data only_empty_object [] (bad ++ good) = (bad ++ good, [])
  /\ forall more,
       Tcp.on_data only_empty_object (bad ++ good) more = ((bad ++ good) ++ more, []).
Proof.
  intros bad good. split; [reflexivity|].
  apply (frame_reader_stalls only_empty_object [] (bad ++ good)).
  - cbn. lia.
  - cbn. lia.
  - cbn. lia.
  - reflexivity.
Defined.

(** * Further properties of the code *)

(** ** The shared-secret middleware *)

Lemma differs_false secret s :
  differs secret s = false <-> secret = Some (Str s).
Proof.
  unfold differs. destruct secret as [[| | |s'| |]|]; split; try discriminate.
  - intros H. apply negb_false_iff, String.eqb_eq in H. now subst.
  - intros [= ->]. now rewrite String.eqb_refl.
Qed.

(** X1 (who passes the middleware).  A request passes exactly when it is for
    [/health], or a secret is configured and the request carries it: in the
    [x-relay-secret] header, or, when that header is absent or empty, as the
    string [secret] of the body.  A header that is present and not empty
    decides alone. *)
Theorem middleware_passes (RELAY_SECRET : string) (req : request) :
  middleware RELAY_SECRET req = Next
  <-> path req = "/health"
      \/ (RELAY_SECRET <> ""
          /\ (secret_header req = Some RELAY_SECRET
              \/ ((secret_header req = None \/ secret_header req = Some "")
                  /\ opt (body req) "secret" = Some (Str RELAY_SECRET)))).
Proof.
  unfold middleware.
  destruct (String.eqb_spec (path req) "/health") as [Hp|Hp]; [tauto|].
  destruct (String.eqb_spec RELAY_SECRET "") as [Hs|Hs]; cbn [orb].
  { split; [discriminate|]. intros [?|[? _]]; contradiction. }
  destruct (differs (secret_of req) RELAY_SECRET) eqn:Hd.
  - split; [discriminate|]. intros [?|[_ H]]; [contradiction|]. exfalso.
    assert (Hsec : secret_of req = Some (Str RELAY_SECRET)).
    { unfold secret_of. destruct H as [-> | [[-> | ->] ->]]; try reflexivity.
      destruct (String.eqb_spec RELAY_SECRET ""); [contradiction|reflexivity]. }
    apply differs_false in Hsec. congruence.
  - split; [|reflexivity]. intros _. right. split; [assumption|].
    apply differs_false in Hd. unfold secret_of in Hd.
    destruct (secret_header req) as [h|]; [|right; auto].
    destruct (String.eqb_spec h "") as [E|Hh]; [subst h; right; auto|].
    left. congruence.
Qed.

(** X2 (no secret configured).  When [RELAY_SECRET] is unset, hence the empty
    string, every request but the one for [/health] is refused, whatever
    header and body it carries, an empty secret included; [/health] passes
    under every configuration. *)
Theorem middleware_closed_without_secret (req : request) :
  (path req <> "/health" -> middleware "" req = Unauthorized)
  /\ (path req = "/health" -> forall RELAY_SECRET, middleware RELAY_SECRET req = Next).
Proof.
  unfold middleware. split.
  - intros H. destruct (String.eqb_spec (path req) "/health"); [contradiction|reflexivity].
  - intros -> s. reflexivity.
Qed.

Lemma middleware_closed_without_secret_witness :
  middleware "" {| path := "/sync"; secret_header := Some ""; body := Some (Obj [("secret", Str "")]) |}
  = Unauthorized
  /\ middleware "s3cret" {| path := "/health"; secret_header := None; body := None |} = Next.
Proof.
  split.
  - apply (middleware_closed_without_secret
             {| path := "/sync"; secret_header := Some ""; body := Some (Obj [("secret", Str "")]) |}).
    discriminate.
  - now apply (middleware_closed_without_secret
                 {| path := "/health"; secret_header := None; body := None |}).
Defined.

(** ** Timeouts and fatal steps *)



(** X4 (failed connection).  When the socket reports an error before it
    opens, [syncAccount] of [index.js] rejects with that error; when the
    12 s connect timer elapses first, it rejects with the connect timeout and
    the socket has been terminated once, by the timer's callback.  Either
    way the only other action is the connection attempt: nothing is sent,
    and the [finally] of the sync, which sits behind the connection, does not
    run. *)
Theorem connection_failure (a : account) (st : state) (rest : list event) :
  (forall message,
     await_open (inbox st) = (OpenFailed message, rest) ->
     Relay.syncAccount a st
     = (Throw (ConnectError message),
        State rest (trace st ++ [Connect (host a)]) (symbols st) (lotSizes st)))
  /\ (await_open (inbox st) = (OpenTimeout, rest) ->
      Relay.syncAccount a st
      = (Throw (ConnectTimeout (host a)),
         State rest (trace st ++ [Connect (host a); Terminate]) (symbols st) (lotSizes st))).
Proof.
  split; [intros message H | intros H];
    unfold Relay.syncAccount, bind, connectWS; cbv zeta;
    change (inbox (log (Connect (host a)) st)) with (inbox st); rewrite H;
    unfold log, set_inbox; cbn; [reflexivity|].
  now rewrite <- app_assoc.
Qed.

Lemma connection_failure_witness :
  Relay.syncAccount sample_account
    (start [Failed "getaddrinfo ENOTFOUND"; Message (Some (response 2101 []))])
  = (Throw (ConnectError "getaddrinfo ENOTFOUND"),
     State [Message (Some (response 2101 []))] ([] ++ [Connect (host sample_account)]) ∅ ∅).
Proof.
  apply (proj1 (connection_failure sample_account
                  (start [Failed "getaddrinfo ENOTFOUND"; Message (Some (response 2101 []))])
                  [Message (Some (response 2101 []))])).
  reflexivity.
Defined.

(** The requests of the authentication, in order, are the two it has. *)
Lemma authenticate_requests a st :
  idle_armed (trace st) = false ->
  exists reqs,
    trace (snd (authenticate a st)) = trace st ++ reqs
    /\ (reqs = [Send 2100 (Obj [("clientId", clientId a); ("clientSecret", clientSecret a)])]
        \/ reqs = [Send 2100 (Obj [("clientId", clientId a); ("clientSecret", clientSecret a)]);
                   Send 2102 (Obj [("ctidTraderAccountId", Num (ctidAccountId a));
                                   ("accessToken", accessToken a)])]).
Proof.
  intros Hidle. unfold authenticate. unfold bind at 1. cbn [sendMsg]. unfold bind at 1.
  set (st1 := log _ st).
  assert (Hidle1 : idle_armed (trace st1) = false).
  { subst st1. cbn [log trace]. rewrite idle_armed_app; [assumption|].
    repeat constructor. }
  destruct (waitFor_frame 2101 12000 st1 Hidle1) as (H1 & _).
  destruct (waitFor 2101 12000 st1) as [[m|e|] st2]; cbn [snd] in *;
    try (eexists; split; [rewrite H1; reflexivity | now left]).
  unfold bind at 1. cbn [sendMsg]. unfold bind at 1.
  set (st3 := log _ st2).
  assert (Hidle3 : idle_armed (trace st3) = false).
  { subst st3. cbn [log trace]. rewrite idle_armed_app; [congruence|].
    repeat constructor. }
  destruct (waitFor_frame 2103 12000 st3 Hidle3) as (H3 & _).
  destruct (waitFor 2103 12000 st3) as [[m'|e|] st4]; cbn [snd ret] in *;
    eexists; (split; [rewrite H3; subst st3; cbn [log trace]; rewrite H1; subst st1;
                      cbn [log trace]; rewrite <- app_assoc; reflexivity | now right]).
Qed.

(** X5 (authentication is fatal).  When the application or the account
    authentication fails, by a timeout or by an error of the remote side,
    [syncAccount] of [index.js] rejects with that very error after closing
    the connection, and the only requests it has sent are those of the
    authentication: no symbol list, no deals are asked for.  When it is the
    wait for the application's authentication that fails, the access token
    has not been sent either. *)
Theorem authentication_failure_fatal (a : account) (st st0 st1 : state) (e : error) :
  connectWS (host a) st = (Ok tt, st0) ->
  authenticate a st0 = (Throw e, st1) ->
  let app := Send 2100 (Obj [("clientId", clientId a); ("clientSecret", clientSecret a)]) in
  let acc := Send 2102 (Obj [("ctidTraderAccountId", Num (ctidAccountId a));
                             ("accessToken", accessToken a)]) in
  Relay.syncAccount a st = (Throw e, log Terminate st1)
  /\ (trace st1 = trace st0 ++ [app] \/ trace st1 = trace st0 ++ [app; acc])
  /\ (forall st', waitFor 2101 12000 (log app st0) = (Throw e, st') ->
        trace st1 = trace st0 ++ [app]).
Proof.
  intros Hconn Hauth app acc.
  assert (Hidle : idle_armed (trace st0) = false).
  { unfold connectWS in Hconn. cbv zeta in Hconn.
    destruct (await_open _) as [[|m|] r]; try discriminate.
    injection Hconn as <-. apply idle_armed_Connect. }
  repeat apply conj.
  - unfold Relay.syncAccount. rewrite (bind_Ok _ _ _ _ _ Hconn). unfold try_finally.
    now rewrite (bind_Throw _ _ _ _ _ Hauth).
  - destruct (authenticate_requests a st0 Hidle) as (reqs & E & [-> | ->]);
      rewrite Hauth in E; cbn [snd] in E; auto.
  - intros st' Hwait. unfold authenticate, bind at 1 in Hauth. cbn [sendMsg] in Hauth.
    fold app in Hauth. unfold bind at 1 in Hauth. rewrite Hwait in Hauth.
    injection Hauth as <-.
    assert (Hidle1 : idle_armed (trace (log app st0)) = false).
    { cbn [log trace]. rewrite idle_armed_app; [assumption|]. repeat constructor. }
    destruct (waitFor_frame 2101 12000 (log app st0) Hidle1) as (H1 & _).
    rewrite Hwait in H1. exact H1.
Qed.

Lemma authentication_failure_fatal_witness :
  Relay.syncAccount sample_account
    (start [Open;
            Message (Some (response 2142 [("errorCode", Str "CH_CLIENT_AUTH_FAILURE")]))])
  = (Throw (RemoteError (Fin 2142) (ErrorCode (Str "CH_CLIENT_AUTH_FAILURE"))),
     log Terminate
       (State [] [Connect (host sample_account);
                  Send 2100 (Obj [("clientId", Str "app"); ("clientSecret", Str "secret")])]
          ∅ ∅)).
Proof.
  refine (proj1 (authentication_failure_fatal sample_account
            (start [Open;
                    Message (Some (response 2142 [("errorCode", Str "CH_CLIENT_AUTH_FAILURE")]))])
            (State [Message (Some (response 2142 [("errorCode", Str "CH_CLIENT_AUTH_FAILURE")]))]
               [Connect (host sample_account)] ∅ ∅)
            (State [] [Connect (host sample_account);
                       Send 2100 (Obj [("clientId", Str "app"); ("clientSecret", Str "secret")])]
               ∅ ∅)
            _ _ _)); reflexivity.
Defined.

(** X6 (a failed deal page is fatal).  When a wait for a deal page fails, or
    a page cannot be read, after any number of pages already collected,
    [syncAccount] of [index.js] rejects with that error after closing the
    connection: the deals collected so far are not returned. *)
Theorem deal_page_failure_fatal (a : account) (st st1 st2 : state) (e : error) :
  (connectWS (host a) ;;; authenticate a ;;; Relay.new_tables ;;; Relay.symbol_list a) st
  = (Ok tt, st1) ->
  fetch_deals 2133 2134 a st1 = (Throw e, st2) ->
  Relay.syncAccount a st = (Throw e, log Terminate st2).
Proof.
  intros Hpre Hdeals.
  apply bind_Ok_inv in Hpre as ([] & s0 & Hconn & Hpre).
  apply bind_Ok_inv in Hpre as ([] & s1 & Hauth & Hpre).
  apply bind_Ok_inv in Hpre as ([] & s2 & Hnew & Hsym).
  unfold Relay.syncAccount. rewrite (bind_Ok _ _ _ _ _ Hconn). unfold try_finally.
  rewrite (bind_Ok _ _ _ _ _ Hauth), (bind_Ok _ _ _ _ _ Hnew), (bind_Ok _ _ _ _ _ Hsym).
  unfold Relay.deals_and_details. now rewrite (bind_Throw _ _ _ _ _ Hdeals).
Qed.

Lemma deal_page_failure_fatal_witness :
  fst (Relay.syncAccount sample_account
         (start [Open; Message (Some (response 2101 [])); Message (Some (response 2103 []));
                 Message (Some (response 2120 []));
                 Message (Some (response 2134 [("deal", Arr (sample_page 500 1000))]));
                 Elapsed]))
  = Throw (WaitTimeout 2134).
Proof.
  refine (f_equal fst (deal_page_failure_fatal sample_account
            (start [Open; Message (Some (response 2101 [])); Message (Some (response 2103 []));
                    Message (Some (response 2120 []));
                    Message (Some (response 2134 [("deal", Arr (sample_page 500 1000))]));
                    Elapsed])
            (snd ((connectWS (host sample_account) ;;; authenticate sample_account ;;;
                   Relay.new_tables ;;; Relay.symbol_list sample_account)
                    (start [Open; Message (Some (response 2101 []));
                            Message (Some (response 2103 []));
                            Message (Some (response 2120 []));
                            Message (Some (response 2134 [("deal", Arr (sample_page 500 1000))]));
                            Elapsed])))
            _ (WaitTimeout 2134) _ _)).
  - vm_compute. reflexivity.
  - vm_compute. reflexivity.
Defined.

(** ** Pagination in general *)

(** Full pages followed by a page below the cap. *)
Lemma deal_pages_run reqType resType a ps :
  forall evs fuel allDeals pageFrom pages st p ev rest,
    Forall2 (delivers_page resType) evs ps ->
    Forall (full_page a) ps ->
    delivers_page resType ev p ->
    (length p < 500)%nat ->
    inbox st = evs ++ ev :: rest ->
    (pages + length ps < 40)%nat ->
    (length ps < fuel)%nat ->
    deal_pages reqType resType a fuel allDeals pageFrom pages st
    = (Ok (allDeals ++ concat ps ++ p,
           (pages + length ps + match p with [] => 0 | _ :: _ => 1 end)%nat),
       State rest
         (trace st ++ map (fun f => Send reqType (deal_request a f))
                        (pageFrom :: map cursor_after ps))
         (symbols st) (lotSizes st)).
Proof.
  induction ps as [|q ps IH];
    intros evs fuel allDeals pageFrom pages st p ev rest Hev Hfull Hp Hshort Hin Hpages Hfuel.
  - inversion Hev; subst. destruct Hp as (msg & -> & Hpage).
    destruct fuel as [|fuel]; [simpl in Hfuel; lia|]. simpl in Hin, Hpages.
    rewrite (deal_pages_step reqType resType a fuel allDeals pageFrom pages st [] msg p rest);
      [|lia|exact Hin|constructor|exact Hpage].
    destruct st as [i t sy lo]. destruct p as [|d p].
    + cbn. rewrite app_nil_r, Nat.add_0_r, Nat.add_0_r. reflexivity.
    + destruct (Nat.ltb_spec (length (d :: p)) 500); [|lia].
      cbn. rewrite Nat.add_0_r, Nat.add_1_r. reflexivity.
  - inversion Hev as [|e0 q' evs' ps' (msg & -> & Hpage) Hev']; subst.
    inversion Hfull as [|? ? (Hlen & ts & Hts & Hgeb) Hfull']; subst.
    destruct fuel as [|fuel]; [simpl in Hfuel; lia|]. simpl in Hpages, Hfuel.
    rewrite (deal_pages_step reqType resType a fuel allDeals pageFrom pages st [] msg q
               (evs' ++ ev :: rest)); [|lia|exact Hin|constructor|exact Hpage].
    destruct q as [|d q0]; [discriminate|]. rewrite Hlen, Hts, Hgeb.
    change (500 <? 500)%nat with false. cbv iota.
    rewrite (IH evs' fuel (allDeals ++ d :: q0) (num_succ (Math_max ts)) (S pages)
               (set_inbox (evs' ++ ev :: rest)
                  (log (Send reqType (deal_request a pageFrom)) st))
               p ev rest Hev' Hfull' Hp Hshort eq_refl); [|lia|lia].
    assert (Hc : cursor_after (d :: q0) = num_succ (Math_max ts))
      by (unfold cursor_after; now rewrite Hts).
    cbn [map concat length]. rewrite Hc. unfold set_inbox, log. cbn.
    rewrite <- !app_assoc. repeat f_equal. lia.
Qed.



(** ** The two tables *)

Lemma nonzero_Some n k : nonzero n = Some k -> k = n /\ nonzero k = Some k.
Proof.
  intros H. assert (k = n) as ->; [|auto].
  destruct n as [|x| |]; cbn in H; try congruence.
  destruct (x =? 0); congruence.
Qed.

#[local] Instance keeps_names_preorder : PreOrder keeps_names.
Proof.
  split.
  - intros st id v H _. exact H.
  - intros s1 s2 s3 H12 H23 id v H Ht. apply H23; auto.
Qed.

#[local] Instance stays_clean_preorder : PreOrder stays_clean.
Proof. split; [intros st H; exact H | intros s1 s2 s3 H12 H23 H; auto]. Qed.

(** What holds of every relation that only looks at the tables. *)
Section TableFacts.

Context (R : relation state) `{!PreOrder R}.
Hypothesis Hframe :
  forall st st', symbols st' = symbols st -> lotSizes st' = lotSizes st -> R st st'.
Hypothesis Hdetail : forall d, preserves R (Relay.detail_entry d).

Lemma table_sendMsg t payload : preserves R (sendMsg t payload).
Proof. intros st. now apply Hframe. Qed.

Lemma table_waitFor want t : preserves R (waitFor want t).
Proof. intros st. apply Hframe; apply (waitFor_tables want t st). Qed.

Hint Resolve table_sendMsg table_waitFor Hdetail : flow.

Lemma table_deal_pages reqType resType a fuel :
  forall allDeals pageFrom pages,
    preserves R (deal_pages reqType resType a fuel allDeals pageFrom pages).
Proof.
  induction fuel as [|fuel IH]; intros; cbn [deal_pages]; cbv zeta; flow.
Qed.

Lemma table_detail_rounds a fuel :
  forall uniqueIds i, preserves R (Relay.detail_rounds a fuel uniqueIds i).
Proof.
  induction fuel as [|fuel IH]; intros; cbn [Relay.detail_rounds]; cbv zeta; flow.
Qed.

Hint Resolve table_deal_pages table_detail_rounds : flow.

Lemma table_symbol_details a allDeals : preserves R (Relay.symbol_details a allDeals).
Proof. unfold Relay.symbol_details. flow. Qed.

Lemma table_deals_and_details a : preserves R (Relay.deals_and_details a).
Proof.
  unfold Relay.deals_and_details, fetch_deals.
  apply preserves_bind; try exact _; [auto with flow|]. intros r. cbv zeta.
  apply preserves_bind; try exact _; [apply table_symbol_details|].
  intros _. apply preserves_id; [exact _|reflexivity].
Qed.

End TableFacts.

Lemma keeps_names_frame st st' :
  symbols st' = symbols st -> lotSizes st' = lotSizes st -> keeps_names st st'.
Proof. intros Hs _ id v H _. now rewrite Hs. Qed.

Lemma stays_clean_frame st st' :
  symbols st' = symbols st -> lotSizes st' = lotSizes st -> stays_clean st st'.
Proof. intros Hs Hl H. now rewrite Hs, Hl. Qed.

(** Case analysis on every [match] and [if] of the goal. *)
Ltac crunch :=
  repeat match goal with
         | |- context [match ?x with _ => _ end] => destruct x eqn:?
         end.

Lemma keeps_names_detail_entry d : preserves keeps_names (Relay.detail_entry d).
Proof.
  unfold Relay.detail_entry. cbv zeta.
  destruct d; try apply preserves_throw; try exact _;
    (apply preserves_bind; try exact _;
     [ crunch; try (apply preserves_ret; exact _);
       intros st id v H _; exact H
     | intros _ st id v H Ht; unfold Relay.put_symbol;
       crunch; cbn [snd set_symbols symbols]; try exact H;
       match goal with
       | E : (_ && negb (truthy (_ !! ?i)))%bool = true |- _ =>
           apply andb_prop in E as [_ E]; apply negb_true_iff in E;
           rewrite lookup_insert_ne; [exact H|]; intros ->; rewrite H, Ht in E; discriminate
       end ]).
Qed.

Lemma stays_clean_put_symbol i n name st :
  nonzero n = Some i -> truthy (Some name) = true ->
  stays_clean st (snd (Relay.put_symbol i name st)).
Proof.
  intros Hi Ht [Hn Hl]. apply nonzero_Some in Hi as [_ Hi]. split; [|exact Hl].
  intros id v. cbn. rewrite lookup_insert. case_decide as E.
  - intros [= <-]. subst. auto.
  - apply Hn.
Qed.

Lemma stays_clean_put_lotSize i n l m st :
  nonzero n = Some i -> nonzero m = Some l ->
  stays_clean st (snd (Relay.put_lotSize i l st)).
Proof.
  intros Hi Hl0 [Hn Hl]. apply nonzero_Some in Hi as [_ Hi].
  apply nonzero_Some in Hl0 as [_ Hl0]. split; [exact Hn|].
  intros id v. cbn. rewrite lookup_insert. case_decide as E.
  - intros [= <-]. subst. auto.
  - apply Hl.
Qed.

Lemma stays_clean_detail_entry d : preserves stays_clean (Relay.detail_entry d).
Proof.
  unfold Relay.detail_entry. cbv zeta.
  destruct d; try apply preserves_throw; try exact _;
    (apply preserves_bind; try exact _;
     [ crunch; try (apply preserves_ret; exact _);
       intros st; eapply stays_clean_put_lotSize; eassumption
     | intros _ st; crunch; try reflexivity;
       match goal with
       | E : (truthy (Some ?nm) && _)%bool = true |- _ =>
           apply andb_prop in E as [E _]; eapply stays_clean_put_symbol; eassumption
       end ]).
Qed.

Lemma stays_clean_symbol_list a : preserves stays_clean (Relay.symbol_list a).
Proof.
  unfold Relay.symbol_list.
  apply preserves_try_catch; try exact _; [|intros; apply preserves_ret; exact _].
  apply preserves_bind; try exact _; [intros st; now apply stays_clean_frame|]. intros _.
  apply preserves_bind; try exact _;
    [intros st; apply stays_clean_frame; apply (waitFor_tables 2120 20000 st)|].
  intros symRes. cbv zeta.
  apply preserves_bind; try exact _; [apply preserves_lift; exact _|]. intros entries.
  apply preserves_for_each; try exact _. intros s st. unfold Relay.symbol_entry, ret, throw.
  destruct s; try reflexivity;
    (destruct (nonzero _) as [i|] eqn:Hi; [|reflexivity]);
    crunch; try reflexivity; eapply stays_clean_put_symbol; eassumption.
Qed.

(** X8 (a name once known is kept).  Whatever the symbol details bring, in
    whatever number of batches and however the step ends, a name the symbol
    table holds before the step is still there, unchanged, after it; so the
    result of the sync reports it. *)
Theorem names_never_overwritten (a : account) (st : state) (id : num) (v : value) :
  symbols st !! id = Some v ->
  truthy (Some v) = true ->
  (forall allDeals, symbols (snd (Relay.symbol_details a allDeals st)) !! id = Some v)
  /\ (forall r st', Relay.deals_and_details a st = (Ok r, st') ->
                    Relay.names r !! id = Some v).
Proof.
  intros H Ht. split.
  - intros allDeals.
    apply (table_symbol_details keeps_names keeps_names_frame keeps_names_detail_entry
             a allDeals st id v H Ht).
  - intros r st' Hrun.
    pose proof (table_deals_and_details keeps_names keeps_names_frame
                  keeps_names_detail_entry a st id v H Ht) as Hk.
    rewrite Hrun in Hk. cbn [snd] in Hk.
    unfold Relay.deals_and_details in Hrun.
    apply bind_Ok_inv in Hrun as (pg & s1 & _ & Hrun).
    apply bind_Ok_inv in Hrun as ([] & s2 & _ & [= <- <-]). exact Hk.
Qed.

Lemma names_never_overwritten_witness :
  symbols (snd (Relay.symbol_details sample_account [sample_deal 10 7; sample_deal 20 9]
                  (State [Message (Some (response 2126
                                           [("symbolDetails", Arr [detail_7; detail_9])]))]
                     [] {[ Fin 7 := Str "EURUSD" ]} ∅))) !! Fin 7
  = Some (Str "EURUSD").
Proof.
  refine (proj1 (names_never_overwritten sample_account
                   (State [Message (Some (response 2126
                                            [("symbolDetails", Arr [detail_7; detail_9])]))]
                      [] {[ Fin 7 := Str "EURUSD" ]} ∅) (Fin 7) (Str "EURUSD") _ _) _).
  - vm_compute. reflexivity.
  - reflexivity.
Defined.

(** X9 (what the tables hold).  In every result [syncAccount] of [index.js]
    returns, no table has the key 0 or [NaN], every name of the symbol table
    is truthy (not an empty string, not [null]) and every lot size is a
    number other than 0 and [NaN]: entries without a usable identifier, name
    or lot size were skipped. *)
Theorem tables_clean (a : account) (st st' : state) (r : Relay.result) :
  Relay.syncAccount a st = (Ok r, st') ->
  clean (Relay.names r) (Relay.lots r).
Proof.
  intros H. unfold Relay.syncAccount in H.
  apply bind_Ok_inv in H as ([] & s0 & Hconn & H).
  unfold try_finally in H.
  destruct (bind (authenticate a) _ s0) as [[r'|e|] s5] eqn:Hbody; try discriminate.
  injection H as <- <-.
  apply bind_Ok_inv in Hbody as ([] & s1 & Hauth & Hbody).
  apply bind_Ok_inv in Hbody as ([] & s2 & [= <-] & Hbody).
  apply bind_Ok_inv in Hbody as ([] & s3 & Hsym & Hbody).
  assert (H2 : clean (symbols (set_lotSizes ∅ (set_symbols ∅ s1)))
                 (lotSizes (set_lotSizes ∅ (set_symbols ∅ s1)))).
  { split; intros id v; cbn; rewrite lookup_empty; discriminate. }
  pose proof (stays_clean_symbol_list a _ H2) as H3. rewrite Hsym in H3. cbn [snd] in H3.
  pose proof (table_deals_and_details stays_clean stays_clean_frame
                stays_clean_detail_entry a s3 H3) as H4.
  rewrite Hbody in H4. cbn [snd] in H4.
  unfold Relay.deals_and_details in Hbody.
  apply bind_Ok_inv in Hbody as (pg & s4 & _ & Hbody).
  apply bind_Ok_inv in Hbody as ([] & s6 & _ & [= <- <-]). exact H4.
Qed.

Lemma tables_clean_witness :
  let r := {| Relay.deals := [sample_deal 10 7]; Relay.names := {[ Fin 7 := Str "EURUSD" ]};
              Relay.lots := {[ Fin 7 := Fin 100000 ]}; Relay.pages := 1; Relay.total := 1 |} in
  clean (Relay.names r) (Relay.lots r).
Proof.
  intros r.
  apply (tables_clean sample_account
           (start [Open; Message (Some (response 2101 [])); Message (Some (response 2103 []));
                   Message (Some (response 2120
                     [("symbol", Arr [Obj [("symbolId", number 7); ("symbolName", Str "EURUSD")];
                                      Obj [("symbolId", number 0); ("symbolName", Str "ZERO")];
                                      Obj [("symbolId", number 8); ("symbolName", Str "")]])]));
                   Message (Some (response 2134 [("deal", Arr [sample_deal 10 7])]));
                   Message (Some (response 2126
                     [("symbolDetails", Arr [Obj [("symbolId", number 7); ("lotSize", number 100000)];
                                             Obj [("symbolId", number 9); ("lotSize", number 0)]])]))])
           (snd (Relay.syncAccount sample_account
             (start [Open; Message (Some (response 2101 [])); Message (Some (response 2103 []));
                   Message (Some (response 2120
                     [("symbol", Arr [Obj [("symbolId", number 7); ("symbolName", Str "EURUSD")];
                                      Obj [("symbolId", number 0); ("symbolName", Str "ZERO")];
                                      Obj [("symbolId", number 8); ("symbolName", Str "")]])]));
                   Message (Some (response 2134 [("deal", Arr [sample_deal 10 7])]));
                   Message (Some (response 2126
                     [("symbolDetails", Arr [Obj [("symbolId", number 7); ("lotSize", number 100000)];
                                             Obj [("symbolId", number 9); ("lotSize", number 0)]])]))])))
           r).
  vm_compute. reflexivity.
Defined.

(** ** The symbol details *)

Lemma symbolIds_of_records l :
  Forall (fun d => d <> Null) l ->
  exists ids, map_js Relay.symbolId_of l = Ok ids.
Proof.
  induction 1 as [|d l Hd _ (ids & E)]; [now exists []|].
  cbn [map_js]. rewrite E. destruct d; try contradiction; eexists; reflexivity.
Qed.

Lemma symbolIds_of_null l :
  In Null l -> map_js Relay.symbolId_of l = Throw TypeError.
Proof.
  induction l as [|d l IH]; [intros []|]. intros [-> | H]; [reflexivity|].
  cbn [map_js]. rewrite (IH H). destruct d; reflexivity.
Qed.

Lemma symbol_details_settles a allDeals st :
  Forall (fun d => d <> Null) allDeals ->
  exists st', Relay.symbol_details a allDeals st = (Ok tt, st')
              \/ Relay.symbol_details a allDeals st = (Crash, st').
Proof.
  intros Hrec. destruct (symbolIds_of_records _ Hrec) as (ids & E).
  destruct (Relay.symbol_details a allDeals st) as [o st'] eqn:Hs. exists st'.
  revert Hs. unfold Relay.symbol_details. rewrite E. unfold bind. cbn [lift]. cbv zeta.
  destruct (dedup [] (omap nonzero ids)) as [|z l]; [unfold ret; intros [= <- <-]; now left|].
  unfold try_catch, ret.
  destruct (Relay.detail_rounds a _ _ _ st) as [[[]|e|] st2]; intros [= <- <-]; auto.
Qed.



Lemma dedup_spec l :
  forall seen,
    NoDup (dedup seen l)
    /\ forall z, In z (dedup seen l) <-> In z l /\ ~ In z seen.
Proof.
  induction l as [|x l IH]; intros seen; cbn [dedup].
  - split; [constructor|]. intros z. cbn. tauto.
  - case_bool_decide as Hx.
    + destruct (IH seen) as [Hn Hin]. split; [exact Hn|].
      intros z. rewrite Hin. cbn. split; [tauto|].
      intros [[-> | H] Hs]; [|tauto]. exfalso. apply Hs. now apply list_elem_of_In.
    + destruct (IH (x :: seen)) as [Hn Hin]. split.
      * constructor; [|exact Hn]. rewrite list_elem_of_In, Hin. cbn. tauto.
      * intros z. cbn. rewrite Hin. cbn. split.
        -- intros [<- | [H1 H2]]; [|tauto]. split; [now left|].
           intros H. apply Hx. now apply list_elem_of_In.
        -- intros [[<- | H] Hs]; [now left|].
           destruct (decide (x = z)) as [->|Hne]; [now left|right; tauto].
Qed.

(** The requests of the rounds on a connection without idle timer: one per
    batch, from index [i] in steps of 50, each for a batch that is not empty;
    the first batch is always asked for, and all of them are when the rounds
    return. *)
Lemma detail_rounds_requests a fuel :
  forall uniqueIds i st o st',
  idle_armed (trace st) = false ->
  (length uniqueIds <= i + fuel)%nat ->
  Relay.detail_rounds a fuel uniqueIds i st = (o, st') ->
  exists n,
    trace st'
    = trace st ++ map (fun k => details_request a uniqueIds (i + 50 * k)) (seq 0 n)
    /\ (forall k, (k < n)%nat -> (i + 50 * k < length uniqueIds)%nat)
    /\ ((i < length uniqueIds)%nat -> (1 <= n)%nat)
    /\ (o = Ok tt -> (length uniqueIds <= i + 50 * n)%nat).
Proof.
  induction fuel as [|fuel IH]; intros uniqueIds i st o st' Hidle Hfuel Hrun;
    cbn [Relay.detail_rounds] in Hrun.
  { injection Hrun as <- <-. exists 0%nat. cbn. rewrite app_nil_r. repeat split; lia. }
  destruct (Nat.ltb_spec i (length uniqueIds)) as [Hlt|];
    [|injection Hrun as <- <-; exists 0%nat; cbn; rewrite app_nil_r; repeat split; lia].
  cbv zeta in Hrun. unfold bind at 1 in Hrun. cbn [sendMsg] in Hrun.
  unfold bind at 1 in Hrun.
  fold (details_request a uniqueIds i) in Hrun. set (st1 := log _ st) in Hrun.
  assert (Hidle1 : idle_armed (trace st1) = false).
  { subst st1. cbn [log trace]. rewrite idle_armed_app; [assumption|]. repeat constructor. }
  assert (Hone : trace st' = trace st1 -> o <> Ok tt ->
            exists n, trace st'
                      = trace st ++ map (fun k => details_request a uniqueIds (i + 50 * k))
                                      (seq 0 n)
                      /\ (forall k, (k < n)%nat -> (i + 50 * k < length uniqueIds)%nat)
                      /\ ((i < length uniqueIds)%nat -> (1 <= n)%nat)
                      /\ (o = Ok tt -> (length uniqueIds <= i + 50 * n)%nat)).
  { intros E Ho. exists 1%nat. rewrite E. subst st1. cbn.
    rewrite Nat.add_0_r. split; [reflexivity|]. split; [|split; [lia|contradiction]].
    intros k Hk. replace k with 0%nat by lia. lia. }
  destruct (waitFor_frame 2126 15000 st1 Hidle1) as (Htr & _).
  destruct (waitFor 2126 15000 st1) as [[r|e|] st2]; cbn [snd] in Htr;
    try (injection Hrun as <- <-; apply Hone; [assumption|discriminate]).
  unfold bind at 1 in Hrun. cbn [lift] in Hrun.
  destruct (iterate _) as [entries|e|];
    try (injection Hrun as <- <-; apply Hone; [assumption|discriminate]).
  unfold bind at 1 in Hrun.
  assert (Hloop : trace (snd (for_each Relay.detail_entry entries st2)) = trace st2).
  { clear. revert st2. induction entries as [|d l IHl]; intros st2; [reflexivity|].
    cbn [for_each]. unfold bind.
    assert (Hd : trace (snd (Relay.detail_entry d st2)) = trace st2).
    { unfold Relay.detail_entry, bind, Relay.put_lotSize, Relay.put_symbol, ret, throw.
      cbv zeta. destruct d; try reflexivity;
        repeat match goal with |- context [nonzero ?y] => destruct (nonzero y) end;
        cbn; crunch; reflexivity. }
    destruct (Relay.detail_entry d st2) as [[[]|e|] st3]; cbn [snd] in *; auto.
    now rewrite IHl. }
  destruct (for_each Relay.detail_entry entries st2) as [[[]|e|] st3]; cbn [snd] in Hloop;
    try (injection Hrun as <- <-; apply Hone; [congruence|discriminate]).
  destruct (IH uniqueIds (i + 50)%nat st3 o st') as (n & E & Hn & _ & Hall);
    [congruence|lia|exact Hrun|].
  exists (S n). rewrite E, Hloop, Htr. subst st1. cbn [log trace seq map].
  rewrite <- app_assoc, Nat.mul_0_r, Nat.add_0_r. repeat split.
  - cbn [app]. do 2 f_equal. rewrite <- seq_shift, map_map.
    apply map_ext. intros k. f_equal. lia.
  - intros [|k] Hk; [lia|]. specialize (Hn k ltac:(lia)). lia.
  - lia.
  - intros Hok. specialize (Hall Hok). lia.
Qed.



(** ** [part_001]: what goes over the connection *)

(** X12 (the traffic of [part_001]).  Whenever [syncAccount] of [part_001]
    gets its connection and its promise settles, by a result or by any error,
    the actions of the call are, in this order: the connection; the
    application authentication request, followed or not by the account
    authentication request; at most 40 deal-list requests of type 2155 for
    the account; and one [terminate], the last action.  No symbol request of
    any kind is sent, and the tables are not touched. *)
Theorem plain_sync_traffic (a : account) (st st' : state) (rest : list event)
    (out : outcome Plain.result) :
  await_open (inbox st) = (Opened, rest) ->
  Plain.syncAccount a st = (out, st') ->
  out <> Crash ->
  exists auth froms,
    trace st' = trace st ++ [Connect (host a)] ++ auth
                  ++ map (fun f => Send 2155 (deal_request a f)) froms ++ [Terminate]
    /\ (auth = [Send 2100 (Obj [("clientId", clientId a); ("clientSecret", clientSecret a)])]
        \/ auth = [Send 2100 (Obj [("clientId", clientId a); ("clientSecret", clientSecret a)]);
                   Send 2102 (Obj [("ctidTraderAccountId", Num (ctidAccountId a));
                                   ("accessToken", accessToken a)])])
    /\ (length froms <= 40)%nat
    /\ symbols st' = symbols st /\ lotSizes st' = lotSizes st.
Proof.
  intros Hopen Hrun Hout. unfold Plain.syncAccount in Hrun.
  unfold bind at 1 in Hrun. unfold connectWS in Hrun. cbv zeta in Hrun.
  change (inbox (log (Connect (host a)) st)) with (inbox st) in Hrun.
  rewrite Hopen in Hrun. unfold try_finally in Hrun.
  set (st1 := set_inbox rest (log (Connect (host a)) st)) in Hrun.
  assert (Hidle : idle_armed (trace st1) = false) by apply idle_armed_Connect.
  destruct (authenticate_requests a st1 Hidle) as (auth & Ea & Hauth).
  assert (Ta : symbols (snd (authenticate a st1)) = symbols st1
               /\ lotSizes (snd (authenticate a st1)) = lotSizes st1).
  { unfold authenticate, bind. cbn [sendMsg].
    destruct (waitFor_tables 2101 12000 (log (Send 2100 (Obj [("clientId", clientId a); ("clientSecret", clientSecret a)])) st1))
      as (H1 & H2).
    destruct (waitFor 2101 12000 _) as [[m|e|] st2]; cbn [snd log symbols lotSizes] in *; auto.
    destruct (waitFor_tables 2103 12000 (log (Send 2102 (Obj [("ctidTraderAccountId", Num (ctidAccountId a)); ("accessToken", accessToken a)])) st2))
      as (H3 & H4).
    destruct (waitFor 2103 12000 _) as [[m'|e|] st4]; cbn [snd ret log symbols lotSizes] in *;
      split; congruence. }
  unfold bind at 1 in Hrun.
  destruct (authenticate a st1) as [[[]|e|] st2]; cbn [snd] in Ea, Ta.
  - unfold fetch_deals in Hrun. unfold bind at 1 in Hrun.
    assert (Hidle2 : idle_armed (trace st2) = false).
    { rewrite Ea, idle_armed_app; [exact Hidle|].
      destruct Hauth as [-> | ->]; repeat constructor. }
    destruct (deal_pages_requests 2155 2156 a 40 [] (fromTimestamp a) 0 st2)
      as (froms & closed & Ef & Lf & [-> | [_ Hc]]); [|congruence].
    rewrite app_nil_r in Ef.
    assert (Tf : symbols (snd (deal_pages 2155 2156 a 40 [] (fromTimestamp a) 0 st2))
                 = symbols st2
                 /\ lotSizes (snd (deal_pages 2155 2156 a 40 [] (fromTimestamp a) 0 st2))
                    = lotSizes st2).
    { assert (HP : PreOrder (fun s s' : state =>
                               symbols s' = symbols s /\ lotSizes s' = lotSizes s)).
      { split; [intros s; now split | intros s1 s2 s3 [] []; split; congruence]. }
      apply (@table_deal_pages _ HP). intros s s' ? ?. now split. }
    destruct (deal_pages 2155 2156 a 40 [] (fromTimestamp a) 0 st2) as [[r|e|] st3];
      cbn [snd] in Ef, Tf; cbn [ret terminate log snd] in Hrun;
      inversion Hrun; subst out st'; try congruence;
      exists auth, froms; cbn [trace symbols lotSizes log terminate snd]; rewrite Ef, Ea; subst st1;
      cbn [trace log set_inbox symbols lotSizes] in *;
      (repeat apply conj; [rewrite <- !app_assoc; reflexivity | exact Hauth | simpl in Lf; lia
                          | destruct Tf, Ta; congruence | destruct Tf, Ta; congruence]).
  - cbn [terminate log snd] in Hrun. inversion Hrun; subst out st'.
    exists auth, []. cbn [trace symbols lotSizes map app log terminate snd]. rewrite Ea. subst st1.
    cbn [trace log set_inbox symbols lotSizes] in *.
    repeat apply conj; [rewrite <- !app_assoc; reflexivity | exact Hauth | simpl; lia
                       | apply Ta | apply Ta].
  - inversion Hrun; subst. congruence.
Qed.

Lemma plain_sync_traffic_witness :
  exists auth froms,
    trace (snd (Plain.syncAccount sample_account (start [Open; Elapsed])))
    = [] ++ [Connect (host sample_account)] ++ auth
        ++ map (fun f => Send 2155 (deal_request sample_account f)) froms ++ [Terminate]
    /\ (length froms <= 40)%nat.
Proof.
  destruct (plain_sync_traffic sample_account (start [Open; Elapsed]) _ [Elapsed]
              (fst (Plain.syncAccount sample_account (start [Open; Elapsed])))
              eq_refl (surjective_pairing _))
    as (auth & froms & E & _ & L & _).
  - vm_compute. discriminate.
  - exists auth, froms. split; [exact E|exact L].
Defined.

(** ** The frames of [part_000] *)

Lemma to_N_byte_of z : Byte.to_N (Tcp.byte_of z) = Z.to_N (z mod 256).
Proof.
  unfold Tcp.byte_of. destruct (Byte.of_N (Z.to_N (z mod 256))) as [b|] eqn:E.
  - cbn. now apply Byte.to_of_N.
  - apply Byte.of_N_None_iff in E. pose proof (Z.mod_pos_bound z 256). lia.
Qed.

(** What [writeUInt32BE] writes, [readUInt32BE] reads. *)
Lemma readUInt32BE_writeUInt32BE n rest :
  0 <= n < 2 ^ 32 -> Tcp.readUInt32BE (Tcp.writeUInt32BE n ++ rest) = n.
Proof.
  intros Hn. unfold Tcp.writeUInt32BE. cbn [app Tcp.readUInt32BE].
  rewrite !to_N_byte_of, !Z2N.id by (apply Z.mod_pos_bound; lia).
  change (2 ^ 24) with 16777216. change (2 ^ 16) with 65536. change (2 ^ 8) with 256.
  change (2 ^ 32) with 4294967296 in Hn. Z.to_euclidean_division_equations. lia.
Qed.

Lemma readUInt32BE_app p q :
  (4 <= length p)%nat -> Tcp.readUInt32BE (p ++ q) = Tcp.readUInt32BE p.
Proof.
  intros H. destruct p as [|b0 [|b1 [|b2 [|b3 tl]]]]; simpl in H; try lia. reflexivity.
Qed.

Lemma readUInt32BE_take k f :
  (4 <= k)%nat -> Tcp.readUInt32BE (take k f) = Tcp.readUInt32BE f.
Proof.
  intros H. destruct f as [|b0 [|b1 [|b2 [|b3 tl]]]]; try now destruct k as [|[|[|[|k]]]].
  do 4 (destruct k as [|k]; [lia|]). reflexivity.
Qed.

Lemma length_utf8 c :
  (Tcp.units_of c <= length (Tcp.utf8 c))%nat
  /\ (c < 128 <-> length (Tcp.utf8 c) = Tcp.units_of c).
Proof.
  unfold Tcp.utf8, Tcp.units_of.
  destruct (Z.ltb_spec c 128), (Z.ltb_spec c 2048), (Z.ltb_spec c 65536);
    cbn [length]; split; try split; try lia.
Qed.

Lemma length_Buffer_from body :
  (Tcp.string_length body <= length (Tcp.Buffer_from body))%nat
  /\ (Forall (fun c => c < 128) body
      <-> length (Tcp.Buffer_from body) = Tcp.string_length body).
Proof.
  unfold Tcp.Buffer_from. induction body as [|c body [IH1 IH2]]; cbn [map concat Tcp.string_length foldr].
  - split; [reflexivity|]. split; [reflexivity|constructor].
  - fold (Tcp.string_length body). rewrite length_app.
    destruct (length_utf8 c) as [H1 H2]. split; [lia|]. split.
    + intros H. apply Forall_cons in H as [Hc Hb]. apply H2 in Hc. apply IH2 in Hb. lia.
    + intros H. constructor; [apply H2; lia|apply IH2; lia].
Qed.

Lemma frame_take body :
  Tcp.frame body
  = Tcp.writeUInt32BE (Z.of_nat (Tcp.string_length body))
    ++ take (Tcp.string_length body) (Tcp.Buffer_from body).
Proof.
  destruct (length_Buffer_from body) as [Hle _]. unfold Tcp.frame. cbv zeta.
  replace (Tcp.string_length body - length (Tcp.Buffer_from body))%nat with 0%nat by lia.
  cbn [replicate]. now rewrite app_nil_r.
Qed.

(** X13 (the frame [sendMsg] of [part_000] writes).  The frame has
    [4 + body.length] bytes: the length of the text in UTF-16 code units,
    big-endian, and behind it the first [body.length] bytes of the UTF-8
    encoding of the text; no padding is ever needed.  The frame carries the
    whole text exactly when every character of it is below U+0080: one
    character beyond and the encoding is longer than the frame has room for,
    so its tail is cut off. *)
Theorem frame_shape (body : list Z) :
  let n := Tcp.string_length body in
  let src := Tcp.Buffer_from body in
  length (Tcp.frame body) = (4 + n)%nat
  /\ Tcp.frame body = Tcp.writeUInt32BE (Z.of_nat n) ++ take n src
  /\ (Forall (fun c => c < 128) body <-> Tcp.frame body = Tcp.writeUInt32BE (Z.of_nat n) ++ src)
  /\ (Exists (fun c => 128 <= c) body <-> (n < length src)%nat).
Proof.
  intros n src. destruct (length_Buffer_from body) as [Hle Hiff]. fold n src in Hle, Hiff.
  pose proof (frame_take body) as E. fold n src in E.
  split; [|split; [exact E|split; split]].
  - rewrite E, length_app, length_take. cbn [Tcp.writeUInt32BE length]. lia.
  - intros H. apply Hiff in H. rewrite E, take_ge; [reflexivity|]. rewrite H. reflexivity.
  - rewrite E. intros H. apply app_inv_head in H. apply Hiff.
    apply (f_equal length) in H. rewrite length_take in H. lia.
  - intros H. assert (Hn : ~ Forall (fun c => c < 128) body).
    { intros HF. apply Exists_exists in H as (c & Hc & Hge).
      rewrite Forall_forall in HF. specialize (HF c Hc). lia. }
    rewrite Hiff in Hn. lia.
  - intros H. destruct (Forall_Exists_dec (fun c => c < 128) (fun c => 128 <= c)
                          (fun c => Z_lt_le_dec c 128) body) as [HF|HE]; [|exact HE].
    apply Hiff in HF. lia.
Qed.

(** ** The frame reader of [part_000], over the chunks of a stream *)

Section ReaderFacts.

Variable JSON_parse : list Byte.byte -> option value.

Lemma on_data_nil_r buf :
  Tcp.on_data JSON_parse buf [] = Tcp.on_data JSON_parse [] buf.
Proof. unfold Tcp.on_data. now rewrite app_nil_r. Qed.

(** The listener sees the buffer and the chunk only as their concatenation. *)
Lemma on_data_app buf chunk :
  Tcp.on_data JSON_parse buf chunk = Tcp.on_data JSON_parse [] (buf ++ chunk).
Proof. reflexivity. Qed.

(** A well-formed frame at the head of the data is handed over. *)
Lemma on_data_one f msg rest :
  framed JSON_parse f msg ->
  Tcp.on_data JSON_parse [] (f ++ rest)
  = (fst (Tcp.on_data JSON_parse [] rest), msg :: snd (Tcp.on_data JSON_parse [] rest)).
Proof.
  intros (Hlen & Hhead & Hparse).
  pose proof (on_data_frame JSON_parse [] (f ++ rest) msg) as H. cbv zeta in H.
  cbn [app] in H. rewrite readUInt32BE_app, Hhead in H by lia.
  rewrite Nat2Z.id in H.
  replace (4 + (length f - 4))%nat with (length f) in H by lia.
  rewrite drop_app_length, on_data_nil_r in H. apply H.
  - rewrite length_app. lia.
  - lia.
  - rewrite length_app. lia.
  - rewrite drop_app_le by lia. rewrite take_app_le by (rewrite length_drop; lia).
    rewrite take_ge by (rewrite length_drop; lia). exact Hparse.
Qed.

Lemma on_data_frames fs msgs :
  Forall2 (framed JSON_parse) fs msgs ->
  forall rest,
    Tcp.on_data JSON_parse [] (concat fs ++ rest)
    = (fst (Tcp.on_data JSON_parse [] rest), msgs ++ snd (Tcp.on_data JSON_parse [] rest)).
Proof.
  induction 1 as [|f msg fs msgs Hf _ IH]; intros rest; [now destruct (Tcp.on_data _ _ _)|].
  cbn [concat]. rewrite <- app_assoc, (on_data_one _ _ _ Hf), IH. reflexivity.
Qed.

(** A frame that has not arrived in full stays in the buffer. *)
Lemma on_data_partial f msg k :
  framed JSON_parse f msg -> (k < length f)%nat ->
  Tcp.on_data JSON_parse [] (take k f) = (take k f, []).
Proof.
  intros (Hlen & Hhead & _) Hk. unfold Tcp.on_data. cbn [app].
  assert (El : length (take k f) = k) by (rewrite length_take; lia).
  rewrite El. destruct k as [|k]; [now rewrite take_0|].
  cbn [Tcp.drain]. rewrite El. destruct (Nat.leb_spec 4 (S k)); [|reflexivity].
  rewrite readUInt32BE_take, Hhead by lia.
  destruct (Z.leb_spec (Z.of_nat (length f - 4)) 0); [lia|].
  destruct (Z.ltb_spec 2000000 (Z.of_nat (length f - 4))); [lia|]. cbn [orb].
  rewrite Nat2Z.id. destruct (Nat.ltb_spec (S k) (4 + (length f - 4))); [reflexivity|lia].
Qed.

(** The listener on the first [k] bytes of a stream of well-formed frames:
    the frames that are complete are handed over, what has arrived of the
    next one is kept. *)
Lemma on_data_stream fs msgs :
  Forall2 (framed JSON_parse) fs msgs ->
  forall k, (k <= length (concat fs))%nat ->
  exists fs1 fs2 ms1 ms2 k',
    fs = fs1 ++ fs2 /\ msgs = ms1 ++ ms2
    /\ Forall2 (framed JSON_parse) fs2 ms2
    /\ k = (length (concat fs1) + k')%nat
    /\ Tcp.on_data JSON_parse [] (take k (concat fs)) = (take k' (concat fs2), ms1).
Proof.
  induction 1 as [|f msg fs msgs Hf Hfs IH]; intros k Hk.
  - exists [], [], [], [], 0%nat. cbn in Hk. replace k with 0%nat by lia.
    repeat apply conj; try reflexivity. constructor.
  - cbn [concat] in *. rewrite length_app in Hk.
    destruct (Nat.lt_ge_cases k (length f)) as [Hlt|Hge].
    + exists [], (f :: fs), [], (msg :: msgs), k.
      repeat apply conj; try reflexivity; [now constructor|].
      cbn [concat]. rewrite take_app_le by lia. now apply (on_data_partial f msg).
    + destruct (IH (k - length f)%nat ltac:(lia)) as (fs1 & fs2 & ms1 & ms2 & k' & -> & -> & H2 & Ek & E).
      exists (f :: fs1), fs2, (msg :: ms1), ms2, k'.
      repeat apply conj; try reflexivity; [exact H2 | cbn [concat]; rewrite length_app; lia |].
      rewrite take_app_ge by lia. rewrite (on_data_one _ _ _ Hf), E. reflexivity.
Qed.

Lemma feed_cons buf c cs :
  Tcp.feed JSON_parse buf (c :: cs)
  = (fst (Tcp.feed JSON_parse (fst (Tcp.on_data JSON_parse [] (buf ++ c))) cs),
     snd (Tcp.on_data JSON_parse [] (buf ++ c))
     ++ snd (Tcp.feed JSON_parse (fst (Tcp.on_data JSON_parse [] (buf ++ c))) cs)).
Proof. reflexivity. Qed.

(** The chunks that complete a stream of well-formed frames, from any
    point of it on. *)
Lemma feed_stream cs :
  forall c fs msgs j,
    Forall2 (framed JSON_parse) fs msgs ->
    (j <= length (concat fs))%nat ->
    concat (c :: cs) = drop j (concat fs) ->
    Tcp.feed JSON_parse (take j (concat fs)) (c :: cs) = ([], msgs).
Proof.
  induction cs as [|c' cs IH]; intros c fs msgs j Hfs Hj Hcat.
  - cbn [concat] in Hcat. rewrite app_nil_r in Hcat. subst c.
    rewrite feed_cons, take_drop.
    pose proof (on_data_frames fs msgs Hfs []) as H. rewrite app_nil_r in H.
    rewrite H. cbn. now rewrite !app_nil_r.
  - assert (Ec : take j (concat fs) ++ c = take (j + length c) (concat fs)).
    { rewrite <- (take_drop j (concat fs)) at 2. rewrite take_app_ge by (rewrite length_take; lia).
      rewrite length_take. replace (j + length c - j `min` length (concat fs))%nat
        with (length c) by lia.
      rewrite <- Hcat. cbn [concat]. now rewrite take_app_length. }
    assert (Hlen : (j + length c <= length (concat fs))%nat).
    { apply (f_equal length) in Hcat. cbn [concat] in Hcat.
      rewrite length_app, length_drop in Hcat. lia. }
    destruct (on_data_stream fs msgs Hfs (j + length c)%nat Hlen)
      as (fs1 & fs2 & ms1 & ms2 & k' & -> & -> & H2 & Ek & E).
    rewrite feed_cons, Ec, E. cbn [fst snd].
    rewrite (IH c' fs2 ms2 k' H2); [reflexivity| |].
    + rewrite concat_app, length_app in Hlen. lia.
    + apply (f_equal (drop (length c))) in Hcat. cbn [concat] in Hcat.
      rewrite drop_app_length, drop_drop in Hcat. cbn [concat]. rewrite Hcat.
      rewrite concat_app. replace (j + length c)%nat with (length (concat fs1) + k')%nat by lia.
      now rewrite drop_app_add.
Qed.

Lemma framed_nonempty fs msgs :
  Forall2 (framed JSON_parse) fs msgs -> concat fs = [] -> fs = [] /\ msgs = [].
Proof.
  intros [|f msg fs' msgs' (Hlen & _) _]; [auto|]. cbn [concat]. intros H.
  apply (f_equal length) in H. rewrite length_app in H. cbn in H. lia.
Qed.

(** X14 (frames across chunk boundaries).  However the socket cuts a stream
    of well-formed frames into chunks, in the middle of a length or of a
    body, in chunks that hold many frames or none, the reader that starts
    with an empty buffer hands over the messages of the frames, all of them,
    once each and in the order of the stream, and ends with an empty
    buffer. *)
Theorem reader_reassembles (fs chunks : list (list Byte.byte)) (msgs : list value) :
  Forall2 (framed JSON_parse) fs msgs ->
  concat chunks = concat fs ->
  Tcp.feed JSON_parse [] chunks = ([], msgs).
Proof.
  intros Hfs Hcat. destruct chunks as [|c cs].
  - destruct (framed_nonempty fs msgs Hfs) as [_ ->]; [now rewrite <- Hcat|reflexivity].
  - apply (feed_stream cs c fs msgs 0 Hfs); [lia|now rewrite drop_0].
Qed.

(** A frame of [sendMsg] whose text is short enough and below U+0080 is
    well formed, with the UTF-8 bytes of the text as its body. *)
Lemma frame_framed body msg :
  Forall (fun c => c < 128) body ->
  0 < Z.of_nat (Tcp.string_length body) <= 2000000 ->
  JSON_parse (Tcp.Buffer_from body) = Some msg ->
  framed JSON_parse (Tcp.frame body) msg.
Proof.
  intros Hascii Hn Hparse. destruct (length_Buffer_from body) as [_ Hiff].
  apply Hiff in Hascii. rewrite frame_take, take_ge by lia.
  unfold framed. rewrite length_app. cbn [Tcp.writeUInt32BE length].
  repeat apply conj; try lia.
  - rewrite (readUInt32BE_writeUInt32BE _ (Tcp.Buffer_from body))
      by (change (2 ^ 32) with 4294967296; lia). lia.
  - exact Hparse.
Qed.

(** X15 (what [sendMsg] frames, the reader reads).  The frames [sendMsg] of
    [part_000] builds for texts that are not empty, have at most 2,000,000
    characters, all below U+0080, and that [JSON.parse] accepts, are read
    back by the frame reader as the parsed texts, in order, with nothing
    left in the buffer, however the bytes are cut into chunks on the way. *)
Theorem frame_round_trip (bodies : list (list Z)) (msgs : list value)
    (chunks : list (list Byte.byte)) :
  Forall2 (fun body msg =>
             Forall (fun c => c < 128) body
             /\ 0 < Z.of_nat (Tcp.string_length body) <= 2000000
             /\ JSON_parse (Tcp.Buffer_from body) = Some msg) bodies msgs ->
  concat chunks = concat (map Tcp.frame bodies) ->
  Tcp.feed JSON_parse [] chunks = ([], msgs).
Proof.
  intros Hb Hcat.
  assert (Hfs : Forall2 (framed JSON_parse) (map Tcp.frame bodies) msgs).
  { clear Hcat. induction Hb as [|body msg bodies msgs (H1 & H2 & H3) _ IH]; cbn [map];
      constructor; [now apply frame_framed|exact IH]. }
  destruct chunks as [|c cs].
  - destruct (framed_nonempty _ msgs Hfs) as [_ ->]; [now rewrite <- Hcat|reflexivity].
  - apply (feed_stream cs c _ msgs 0 Hfs); [lia|now rewrite drop_0].
Qed.

(** X16 (a length out of range).  When the four bytes at the head of what
    is buffered, behind any number of well-formed frames, give a length of 0
    or of more than 2,000,000, the reader hands over the messages of those
    frames and drops everything else it holds: the four bytes and all that
    follows them in the buffer, complete frames included. *)
Theorem reader_resets (fs : list (list Byte.byte)) (msgs : list value)
    (buf chunk rest : list Byte.byte) :
  Forall2 (framed JSON_parse) fs msgs ->
  buf ++ chunk = concat fs ++ rest ->
  (4 <= length rest)%nat ->
  Tcp.readUInt32BE rest <= 0 \/ 2000000 < Tcp.readUInt32BE rest ->
  Tcp.on_data JSON_parse buf chunk = ([], msgs).
Proof.
  intros Hfs Hcat H4 Hbad. rewrite on_data_app, Hcat, (on_data_frames fs msgs Hfs).
  assert (E : Tcp.on_data JSON_parse [] rest = ([], [])).
  { unfold Tcp.on_data. cbn [app]. destruct (length rest) as [|n] eqn:En; [lia|].
    cbn [Tcp.drain]. rewrite En. destruct (Nat.leb_spec 4 (S n)); [|lia].
    destruct (Z.leb_spec (Tcp.readUInt32BE rest) 0); [reflexivity|].
    destruct (Z.ltb_spec 2000000 (Tcp.readUInt32BE rest)); [reflexivity|lia]. }
  rewrite E. cbn. now rewrite app_nil_r.
Qed.

End ReaderFacts.

Lemma reader_reassembles_witness :
  Tcp.feed only_empty_object []
    [[x00; x00; x00]; [x02; x7b; x7d; x00; x00]; []; [x00; x02; x7b]; [x7d]]%byte
  = ([], [Obj []; Obj []]).
Proof.
  apply (reader_reassembles only_empty_object
           [[x00; x00; x00; x02; x7b; x7d]; [x00; x00; x00; x02; x7b; x7d]]%byte).
  - repeat constructor; cbn; lia.
  - reflexivity.
Defined.

Lemma frame_round_trip_witness :
  Tcp.feed only_empty_object []
    [[x00; x00; x00]; [x02; x7b; x7d; x00; x00]; [x00; x02; x7b]; [x7d]]%byte
  = ([], [Obj []; Obj []]).
Proof.
  apply (frame_round_trip only_empty_object [[123; 125]; [123; 125]]).
  - repeat constructor; cbn; lia.
  - reflexivity.
Defined.

Lemma reader_resets_witness :
  Tcp.on_data only_empty_object [x00; x00; x00]%byte
    [x02; x7b; x7d; x00; x00; x00; x00; x00; x00; x00; x02; x7b; x7d]%byte
  = ([], [Obj []]).
Proof.
  apply (reader_resets only_empty_object [[x00; x00; x00; x02; x7b; x7d]]%byte [Obj []]
           _ _ [x00; x00; x00; x00; x00; x00; x00; x02; x7b; x7d]%byte).
  - repeat constructor; cbn; lia.
  - reflexivity.
  - cbn. lia.
  - left. cbn. lia.
Defined.

(** ** The handlers of the reader *)

Lemma reader_off_app fn l1 l2 :
  ~ In fn l1 -> Tcp.reader_off fn (l1 ++ l2) = l1 ++ Tcp.reader_off fn l2.
Proof.
  induction l1 as [|h l1 IH]; intros Hn; [reflexivity|]. cbn [app Tcp.reader_off].
  destruct (Nat.eqb_spec h fn) as [->|_]; [exfalso; apply Hn; now left|].
  rewrite IH; [reflexivity|]. intros H. apply Hn. now right.
Qed.

(** X17 (a handler comes and goes).  For a handler that is not registered
    yet, which is what [waitFor] passes (a closure made for the call):
    registering and then removing it leaves the list of handlers as it was,
    also when other handlers were registered in between, and these stay, in
    their order; removing it without having registered it changes
    nothing. *)
Theorem reader_handlers_restored (fn : nat) (hs later : list nat) :
  ~ In fn hs ->
  Tcp.reader_off fn (Tcp.reader_on fn hs) = hs
  /\ Tcp.reader_off fn (foldl (fun l g => Tcp.reader_on g l) (Tcp.reader_on fn hs) later)
     = foldl (fun l g => Tcp.reader_on g l) hs later
  /\ Tcp.reader_off fn hs = hs.
Proof.
  intros Hn.
  assert (Hfold : forall l, foldl (fun l g => Tcp.reader_on g l) l later = l ++ later).
  { induction later as [|g later IH]; intros l; cbn [foldl]; [now rewrite app_nil_r|].
    rewrite IH. unfold Tcp.reader_on. now rewrite <- app_assoc. }
  assert (Hone : forall l, Tcp.reader_off fn (fn :: l) = l).
  { intros l. cbn [Tcp.reader_off]. now rewrite Nat.eqb_refl. }
  repeat apply conj.
  - unfold Tcp.reader_on. rewrite reader_off_app, Hone by exact Hn. apply app_nil_r.
  - rewrite !Hfold. unfold Tcp.reader_on. rewrite <- app_assoc.
    rewrite reader_off_app by exact Hn. cbn [app]. now rewrite Hone.
  - rewrite <- (app_nil_r hs) at 1. rewrite reader_off_app by exact Hn. cbn. apply app_nil_r.
Qed.

Lemma reader_handlers_restored_witness :
  Tcp.reader_off 3 (Tcp.reader_on 3 [1; 2]%nat) = [1; 2]%nat
  /\ Tcp.reader_off 3 (foldl (fun l g => Tcp.reader_on g l) (Tcp.reader_on 3 [1; 2]%nat) [4; 3]%nat)
     = foldl (fun l g => Tcp.reader_on g l) [1; 2]%nat [4; 3]%nat
  /\ Tcp.reader_off 3 [1; 2]%nat = [1; 2]%nat.
Proof.
  apply (reader_handlers_restored 3 [1; 2]%nat [4; 3]%nat). cbn. lia.
Defined.
